(** * Account synchronisation coordinator (accountsSlice)

    A shallow embedding of the Redux slice `account` and of the thunk
    `syncAccounts` with its helper `handleSyncResponse`.

    - The slice state is a record; `failedAccounts` (a JS object used as a
      map) is a [gmap] keyed by account id.
    - `dispatch` and `send` are the two effects of the thunk.  A thunk is a
      function from the world (Redux store + backend) to a result, a new
      world and the list of events it produced, in order.  Every `send` is
      logged together with the answer it received.
    - The backend reached through `send` is a parameter: any (stateful)
      backend can be plugged in. *)

From stdpp Require Import gmap strings list sorting.
From Stdlib Require Import Qabs.

Local Open Scope Z_scope.

(** ** Entities *)

(** Modelled from the spec: the declaration of `AccountEntity`
    (types/models) is not part of the sources; only the fields read by the
    slice are kept.  `closed`, `tombstone` and `offbudget` are 0/1 numbers,
    `sort_order` a number (integers here), `bank` and
    `account_sync_source` may be null. *)
Module AccountEntity.
Record t : Type := mk {
  id : string;
  bank : option string;
  closed : Z;
  tombstone : Z;
  offbudget : Z;
  sort_order : Z;
  account_sync_source : option string;
}.
End AccountEntity.

(** Modelled from the spec: the declaration of `SyncResponseWithErrors`
    (server/accounts/app) is not part of the sources.  An issue either
    carries `type: 'SyncError'` with a category and a code, or is any other
    error object with a message and an optional `internal` detail. *)
Inductive SyncIssue : Type :=
| SyncError (category code message : string)
| OtherError (message : string) (internal : option string).

Record SyncResponseWithErrors : Type := {
  errors : list SyncIssue;
  newTransactions : list string;
  matchedTransactions : list string;
  updatedAccounts : list string;
}.

(** The three result arrays that `syncAccounts` allocates and that
    `handleSyncResponse` extends in place with `push`. *)
Record ResultArrays : Type := {
  resNewTransactions : list string;
  resMatchedTransactions : list string;
  resUpdatedAccounts : list string;
}.

(** ** The slice *)

Record AccountState : Type := {
  failedAccounts : gmap string (string * string);
  accountsSyncing : list string;
}.

Definition initialState : AccountState :=
  {| failedAccounts := ∅; accountsSyncing := [] |}.

(** Actions that the thunks of this file dispatch.  The first three belong
    to the slice, the others to other slices.  `getAccounts` is a thunk of
    the queries slice, whose code is not part of this file: dispatching it
    is recorded as an event, and what it goes on to do (a backend call of
    its own, an update of `queries.accounts`) is outside the model.  A run
    of `syncAccounts` reads `queries.accounts` once, before its first
    dispatch. *)
Inductive Action : Type :=
| setAccountsSyncing (ids : list string)
| markAccountFailed (id errorType errorCode : string)
| markAccountSuccess (id : string)
| addNotification (type message : string) (internal : option string)
| getAccounts
| setNewTransactions (payload : ResultArrays).

Definition reducer (state : AccountState) (action : Action) : AccountState :=
  match action with
  | setAccountsSyncing ids =>
      {| failedAccounts := failedAccounts state; accountsSyncing := ids |}
  | markAccountFailed id errorType errorCode =>
      {| failedAccounts := <[id := (errorType, errorCode)]> (failedAccounts state);
         accountsSyncing := accountsSyncing state |}
  | markAccountSuccess id =>
      {| failedAccounts := delete id (failedAccounts state);
         accountsSyncing := accountsSyncing state |}
  | _ => state
  end.

(** ** Effects *)

Inductive Event : Type :=
| Dispatch (action : Action)
| SendAccountsGet (answer : list AccountEntity.t)
| SendSimplefinBatchSync (ids : list string)
    (answer : list (string * SyncResponseWithErrors))
| SendAccountsBankSync (ids : list string) (answer : SyncResponseWithErrors).

(** The handlers behind `send`, over a backend state of type [Server].
    These handlers answer every call; calls that may be rejected are those
    of a [FallibleBackend]. *)
Record Backend (Server : Type) : Type := {
  accounts_get : Server → list AccountEntity.t * Server;
  simplefin_batch_sync :
    list string → Server → list (string * SyncResponseWithErrors) * Server;
  accounts_bank_sync : list string → Server → SyncResponseWithErrors * Server;
}.
Arguments accounts_get {Server}.
Arguments simplefin_batch_sync {Server}.
Arguments accounts_bank_sync {Server}.

Record World (Server : Type) : Type := {
  account : AccountState;
  queries_accounts : list AccountEntity.t;
  server : Server;
}.
Arguments account {Server}.
Arguments queries_accounts {Server}.
Arguments server {Server}.

Definition Thunk (Server A : Type) : Type :=
  World Server → A * World Server * list Event.

Definition ret {Server A} (a : A) : Thunk Server A := λ w, (a, w, []).

Definition bind {Server A B} (m : Thunk Server A) (k : A → Thunk Server B)
  : Thunk Server B :=
  λ w, let '(a, w1, t1) := m w in
       let '(b, w2, t2) := k a w1 in
       (b, w2, t1 ++ t2).

Declare Scope thunk_scope.
Delimit Scope thunk_scope with thunk.
Notation "x <- m ;; k" := (bind m (λ x, k))
  (at level 100, m at next level, k at level 200, right associativity)
  : thunk_scope.
Notation "m ;; k" := (bind m (λ _, k))
  (at level 100, k at level 200, right associativity) : thunk_scope.

(** ** JavaScript helpers *)

Definition empty_string : string := EmptyString.

(** `!!s` for a possibly missing string. *)
Definition truthy (s : option string) : bool :=
  match s with
  | Some s => negb (bool_decide (s = empty_string))
  | None => false
  end.

(** `!!n` for a number. *)
Definition truthy_num (n : Z) : bool := negb (n =? 0).

(** `Array.prototype.sort(compareFn)`: a stable sort; `a` is put before
    `b` when `compareFn(a, b) <= 0` and `a` came first. *)
Section ArraySort.
Context {A : Type} (compareFn : A → A → Z).

Fixpoint sort_insert (a : A) (l : list A) : list A :=
  match l with
  | [] => [a]
  | b :: l' =>
      if compareFn a b <=? 0 then a :: l else b :: sort_insert a l'
  end.

Definition sort (l : list A) : list A := foldr sort_insert [] l.
End ArraySort.

(** `for (let idx = 0; idx < length; idx++) body`, threading the loop's
    variables [s]. *)
Fixpoint for_idx {Server S} (count : nat) (idx : nat)
    (body : nat → S → Thunk Server S) (s : S) : Thunk Server S :=
  match count with
  | O => ret s
  | Datatypes.S count' =>
      bind (body idx s) (λ s', for_idx count' (Datatypes.S idx) body s')
  end.

(** `for (const x of xs) body` and `xs.forEach(body)`. *)
Fixpoint for_of {Server X S} (xs : list X)
    (body : X → S → Thunk Server S) (s : S) : Thunk Server S :=
  match xs with
  | [] => ret s
  | x :: xs' => bind (body x s) (λ s', for_of xs' body s')
  end.

Section Thunks.
Context {Server : Type} (backend : Backend Server).

Local Open Scope thunk_scope.

Definition dispatch (action : Action) : Thunk Server unit :=
  λ w, (tt,
        {| account := reducer (account w) action;
           queries_accounts := queries_accounts w;
           server := server w |},
        [Dispatch action]).

Definition getState_account : Thunk Server AccountState :=
  λ w, (account w, w, []).

Definition getState_queries : Thunk Server (list AccountEntity.t) :=
  λ w, (queries_accounts w, w, []).

Definition with_server {R} (handler : Server → R * Server)
    (log : R → Event) : Thunk Server R :=
  λ w, let '(r, s') := handler (server w) in
       (r,
        {| account := account w;
           queries_accounts := queries_accounts w;
           server := s' |},
        [log r]).

Definition send_accounts_get : Thunk Server (list AccountEntity.t) :=
  with_server (accounts_get backend) SendAccountsGet.

Definition send_simplefin_batch_sync (ids : list string)
  : Thunk Server (list (string * SyncResponseWithErrors)) :=
  with_server (simplefin_batch_sync backend ids) (SendSimplefinBatchSync ids).

Definition send_accounts_bank_sync (ids : list string)
  : Thunk Server SyncResponseWithErrors :=
  with_server (accounts_bank_sync backend ids) (SendAccountsBankSync ids).

(** ** handleSyncResponse *)

Definition handleSyncResponse (accountId : string)
    (res : SyncResponseWithErrors) (arrays : ResultArrays)
  : Thunk Server (bool * ResultArrays) :=
  (* Mark the account as failed or succeeded *)
  match errors res with
  | error :: _ =>
      match error with
      | SyncError category code _ =>
          dispatch (markAccountFailed accountId category code)
      | OtherError _ _ => ret tt
      end
  | [] => dispatch (markAccountSuccess accountId)
  end ;;
  (* Dispatch errors (if any) *)
  for_of (errors res)
    (λ error _,
       match error with
       | SyncError _ _ message =>
           dispatch (addNotification "error"%string message None)
       | OtherError message internal =>
           dispatch (addNotification "error"%string message internal)
       end) tt ;;
  let arrays' :=
    {| resNewTransactions :=
         resNewTransactions arrays ++ newTransactions res;
       resMatchedTransactions :=
         resMatchedTransactions arrays ++ matchedTransactions res;
       resUpdatedAccounts :=
         resUpdatedAccounts arrays ++ updatedAccounts res |} in
  dispatch getAccounts ;;
  ret ((0 <? length (newTransactions res))%nat
       || (0 <? length (matchedTransactions res))%nat, arrays').

(** ** syncAccounts *)

Definition syncable (a : AccountEntity.t) : bool :=
  truthy (AccountEntity.bank a)
  && negb (truthy_num (AccountEntity.closed a))
  && negb (truthy_num (AccountEntity.tombstone a)).

Definition compareAccounts (a b : AccountEntity.t) : Z :=
  if AccountEntity.offbudget a =? AccountEntity.offbudget b
  then AccountEntity.sort_order a - AccountEntity.sort_order b
  else AccountEntity.offbudget a - AccountEntity.offbudget b.

(** The array of ids built at the start of the run. *)
Definition accountIdsToSync (id : option string)
    (queriesState : list AccountEntity.t) : list string :=
  let batchSync := negb (truthy id) in
  match id with
  | Some id' =>
      if negb batchSync then [id']
      else AccountEntity.id
             <$> sort compareAccounts (filter syncable queriesState)
  | None =>
      AccountEntity.id
        <$> sort compareAccounts (filter syncable queriesState)
  end.

Definition isSimpleFin (a : AccountEntity.t) : bool :=
  bool_decide (AccountEntity.account_sync_source a = Some "simpleFin"%string).

Definition simpleFinAccounts (accountsData : list AccountEntity.t)
  : list AccountEntity.t :=
  filter isSimpleFin accountsData.

(** `ids.filter(id => !simpleFinAccounts.find(sfa => sfa.id === id))` *)
Definition withoutSimpleFin (sfas : list AccountEntity.t)
    (ids : list string) : list string :=
  filter
    (λ id, negb (bool_decide (is_Some
       (List.find (λ sfa, bool_decide (AccountEntity.id sfa = id)) sfas))))
    ids.

Definition emptyArrays : ResultArrays :=
  {| resNewTransactions := [];
     resMatchedTransactions := [];
     resUpdatedAccounts := [] |}.

(** Shared by both loops: classify one response and fold its success bit
    into `isSyncSuccess` ([fst s]); [snd s] are the result arrays. *)
Definition handleAndFlag (accountId : string) (res : SyncResponseWithErrors)
    (s : bool * ResultArrays) : Thunk Server (bool * ResultArrays) :=
  r <- handleSyncResponse accountId res (snd s) ;;
  let success := fst r in
  ret (if success then true else fst s, snd r).

(** Body of the one-by-one loop. *)
Definition syncOne (ids : list string) (idx : nat) (s : bool * ResultArrays)
  : Thunk Server (bool * ResultArrays) :=
  let accountId := default empty_string (ids !! idx) in
  res <- send_accounts_bank_sync [accountId] ;;
  s' <- handleAndFlag accountId res s ;;
  (* Dispatch the ids for the accounts that are yet to be synced *)
  dispatch (setAccountsSyncing (drop (idx + 1) ids)) ;;
  ret s'.

Definition syncAccounts (id : option string) : Thunk Server bool :=
  (* Disallow two parallel sync operations *)
  accountsState <- getState_account ;;
  if (0 <? length (accountsSyncing accountsState))%nat then ret false else
  let batchSync := negb (truthy id) in
  queriesState <- getState_queries ;;
  let ids := accountIdsToSync id queriesState in
  dispatch (setAccountsSyncing ids) ;;
  accountsData <- send_accounts_get ;;
  let sfas := simpleFinAccounts accountsData in
  p <-
    (if batchSync && (0 <? length sfas)%nat then
       res <- send_simplefin_batch_sync (AccountEntity.id <$> sfas) ;;
       s <- for_of res (λ account, handleAndFlag account.1 account.2)
              (false, emptyArrays) ;;
       ret (s, withoutSimpleFin sfas ids)
     else ret ((false, emptyArrays), ids)) ;;
  let s := fst p in
  let ids := snd p in
  (* Loop through the accounts and perform sync operation.. one by one *)
  s <- for_idx (length ids) 0 (syncOne ids) s ;;
  dispatch (setNewTransactions (snd s)) ;;
  dispatch (setAccountsSyncing []) ;;
  ret (fst s).

End Thunks.

(** ** Observations on a run *)

Section Observations.
Context {Server A : Type}.

Definition result (r : A * World Server * list Event) : A := r.1.1.
Definition final (r : A * World Server * list Event) : World Server := r.1.2.
Definition trace (r : A * World Server * list Event) : list Event := r.2.
End Observations.

(** The actions dispatched, in order. *)
Definition dispatched (t : list Event) : list Action :=
  omap (λ e, match e with Dispatch a => Some a | _ => None end) t.

(** The requests sent to the backend, in order (answers dropped). *)
Inductive Request : Type :=
| accounts_get_request
| simplefin_batch_sync_request (ids : list string)
| accounts_bank_sync_request (ids : list string).

Definition requests (t : list Event) : list Request :=
  omap (λ e, match e with
             | Dispatch _ => None
             | SendAccountsGet _ => Some accounts_get_request
             | SendSimplefinBatchSync ids _ =>
                 Some (simplefin_batch_sync_request ids)
             | SendAccountsBankSync ids _ =>
                 Some (accounts_bank_sync_request ids)
             end) t.

(** The notifications raised, in order. *)
Definition notifications (t : list Event)
  : list (string * string * option string) :=
  omap (λ e, match e with
             | Dispatch (addNotification type message internal) =>
                 Some (type, message, internal)
             | _ => None
             end) t.

(** The payloads of the `setNewTransactions` actions, in order. *)
Definition published (t : list Event) : list ResultArrays :=
  omap (λ e, match e with
             | Dispatch (setNewTransactions payload) => Some payload
             | _ => None
             end) t.

(** The sync responses received from the backend, in order: those bundled
    in the answer of a batch call and the answers of the one-by-one
    calls. *)
Definition responses (t : list Event) : list SyncResponseWithErrors :=
  t ≫= (λ e, match e with
             | SendSimplefinBatchSync _ answer => snd <$> answer
             | SendAccountsBankSync _ answer => [answer]
             | _ => []
             end).

(** ** A table-driven backend, used for the worked examples *)

Definition tableBackend (accountsData : list AccountEntity.t)
    (bank_sync : string → SyncResponseWithErrors) : Backend unit :=
  {| accounts_get := λ s, (accountsData, s);
     simplefin_batch_sync := λ ids s, ((λ id, (id, bank_sync id)) <$> ids, s);
     accounts_bank_sync :=
       λ ids s, (bank_sync (default empty_string (head ids)), s) |}.

Definition idleWorld (accounts : list AccountEntity.t) : World unit :=
  {| account := initialState; queries_accounts := accounts; server := tt |}.

Definition plainAccount (id : string) (offbudget sort_order : Z)
  : AccountEntity.t :=
  AccountEntity.mk id (Some "bank-1"%string) 0 0 offbudget sort_order
    (Some "goCardless"%string).

Definition okResponse (new : list string) : SyncResponseWithErrors :=
  {| errors := []; newTransactions := new;
     matchedTransactions := []; updatedAccounts := [] |}.

(** ** What one call of handleSyncResponse does, as data *)

(** The action of the first step, if any. *)
Definition health_action (accountId : string) (res : SyncResponseWithErrors)
  : option Action :=
  match errors res with
  | [] => Some (markAccountSuccess accountId)
  | SyncError category code _ :: _ =>
      Some (markAccountFailed accountId category code)
  | OtherError _ _ :: _ => None
  end.

Definition notification_of (error : SyncIssue) : Action :=
  match error with
  | SyncError _ _ message => addNotification "error"%string message None
  | OtherError message internal =>
      addNotification "error"%string message internal
  end.

Definition handle_actions (accountId : string) (res : SyncResponseWithErrors)
  : list Action :=
  option_list (health_action accountId res)
  ++ (notification_of <$> errors res) ++ [getAccounts].

Definition contributes (res : SyncResponseWithErrors) : bool :=
  (0 <? length (newTransactions res))%nat
  || (0 <? length (matchedTransactions res))%nat.

Definition push (arrays : ResultArrays) (res : SyncResponseWithErrors)
  : ResultArrays :=
  {| resNewTransactions := resNewTransactions arrays ++ newTransactions res;
     resMatchedTransactions :=
       resMatchedTransactions arrays ++ matchedTransactions res;
     resUpdatedAccounts := resUpdatedAccounts arrays ++ updatedAccounts res |}.

(** The world after a list of actions went through the store. *)
Definition after_actions {Server} (w : World Server) (actions : list Action)
  : World Server :=
  {| account := foldl reducer (account w) actions;
     queries_accounts := queries_accounts w;
     server := server w |}.

(** The failure entry that a response leaves for its account, given the
    entry [previous] found before. *)
Definition verdict (previous : option (string * string))
    (res : SyncResponseWithErrors) : option (string * string) :=
  match head (errors res) with
  | None => None
  | Some (SyncError category code _) => Some (category, code)
  | Some (OtherError _ _) => previous
  end.

(** ** Auxiliary notions for the statements *)

(** The order that a comparator induces: `a` may come before `b`. *)
Definition sorts_before {A : Type} (compareFn : A → A → Z) (a b : A) : Prop :=
  compareFn a b ≤ 0.

(** On-budget accounts (smaller `offbudget`) first, then ascending
    `sort_order`. *)
Definition account_le (a b : AccountEntity.t) : Prop :=
  AccountEntity.offbudget a < AccountEntity.offbudget b
  ∨ (AccountEntity.offbudget a = AccountEntity.offbudget b
     ∧ AccountEntity.sort_order a ≤ AccountEntity.sort_order b).


(** `if (success) isSyncSuccess = true` *)
Definition flag_step (isSyncSuccess : bool) (res : SyncResponseWithErrors)
  : bool :=
  if contributes res then true else isSyncSuccess.

Section RunShapeDefinitions.
Context {Server : Type} (backend : Backend Server).
Implicit Types w : World Server.

(** The answers of the backend to consecutive one-by-one calls. *)
Fixpoint bank_sync_answers (ids : list string) (srv : Server)
  : list SyncResponseWithErrors * Server :=
  match ids with
  | [] => ([], srv)
  | id :: ids' =>
      let '(res, srv1) := accounts_bank_sync backend [id] srv in
      let '(answers, srv2) := bank_sync_answers ids' srv1 in
      (res :: answers, srv2)
  end.

(** The events of the one-by-one loop over [ids], the ids from position
    [idx] of [all] on, when the backend answers [answers]. *)
Fixpoint sequential_events (all : list string) (idx : nat)
    (ids : list string) (answers : list SyncResponseWithErrors)
  : list Event :=
  match ids, answers with
  | id :: ids', res :: answers' =>
      SendAccountsBankSync [id] res
      :: (Dispatch <$> handle_actions id res)
      ++ Dispatch (setAccountsSyncing (drop (idx + 1) all))
      :: sequential_events all (S idx) ids' answers'
  | _, _ => []
  end.

Definition batch_actions (answer : list (string * SyncResponseWithErrors))
  : list Action :=
  answer ≫= (λ account, handle_actions account.1 account.2).

End RunShapeDefinitions.

Section RunDefinitions.
Context {Server : Type} (backend : Backend Server).
Implicit Types w : World Server.

(** What a run started in world [w] meets on its way. *)
Definition fetchedAccounts w : list AccountEntity.t :=
  (accounts_get backend (server w)).1.

Definition usesBatch (id : option string) w : bool :=
  negb (truthy id)
  && (0 <? length (simpleFinAccounts (fetchedAccounts w)))%nat.

Definition batchIds w : list string :=
  AccountEntity.id <$> simpleFinAccounts (fetchedAccounts w).

Definition batchAnswer w : list (string * SyncResponseWithErrors) :=
  (simplefin_batch_sync backend (batchIds w)
     (accounts_get backend (server w)).2).1.

Definition serverBeforeLoop (id : option string) w : Server :=
  if usesBatch id w
  then (simplefin_batch_sync backend (batchIds w)
          (accounts_get backend (server w)).2).2
  else (accounts_get backend (server w)).2.

(** The ids left for the one-by-one loop. *)
Definition sequentialIds (id : option string) w : list string :=
  if usesBatch id w
  then withoutSimpleFin (simpleFinAccounts (fetchedAccounts w))
         (accountIdsToSync id (queries_accounts w))
  else accountIdsToSync id (queries_accounts w).

Definition sequentialAnswers (id : option string) w
  : list SyncResponseWithErrors :=
  (bank_sync_answers backend (sequentialIds id w)
     (serverBeforeLoop id w)).1.

Definition batch_events (id : option string) w : list Event :=
  if usesBatch id w
  then SendSimplefinBatchSync (batchIds w) (batchAnswer w)
       :: (Dispatch <$> batch_actions (batchAnswer w))
  else [].

(** All responses handed to [handleSyncResponse], in order. *)
Definition processedResponses (id : option string) w
  : list SyncResponseWithErrors :=
  (if usesBatch id w then snd <$> batchAnswer w else [])
  ++ sequentialAnswers id w.

Definition run_events (id : option string) w : list Event :=
  Dispatch (setAccountsSyncing (accountIdsToSync id (queries_accounts w)))
  :: SendAccountsGet (fetchedAccounts w)
  :: batch_events id w
  ++ sequential_events (sequentialIds id w) 0 (sequentialIds id w)
       (sequentialAnswers id w)
  ++ [Dispatch (setNewTransactions
                  (foldl push emptyArrays (processedResponses id w)));
      Dispatch (setAccountsSyncing [])].

End RunDefinitions.

(** ** Observations on the events of a run *)

(** The two kinds of events by which the one-by-one loop can be followed
    from outside. *)
Inductive Milestone : Type :=
| bank_sync_called (ids : list string)
| progress_published (ids : list string).

Definition milestones (t : list Event) : list Milestone :=
  omap (λ e, match e with
             | SendAccountsBankSync ids _ => Some (bank_sync_called ids)
             | Dispatch (setAccountsSyncing ids) =>
                 Some (progress_published ids)
             | _ => None
             end) t.

(** One-by-one processing of [ids], seen through its milestones: each id
    is synced, then the ids after it are published. *)
Fixpoint step_marks (ids : list string) : list Milestone :=
  match ids with
  | [] => []
  | id :: rest =>
      bank_sync_called [id] :: progress_published rest :: step_marks rest
  end.

(** The actions that [handleSyncResponse] can dispatch. *)
Definition classifier_action (a : Action) : Prop :=
  match a with
  | markAccountFailed _ _ _ | markAccountSuccess _
  | addNotification _ _ _ | getAccounts => True
  | setAccountsSyncing _ | setNewTransactions _ => False
  end.

(** Each publication that follows a one-by-one sync drops exactly the id
    that was just synced from the publication before it. *)
Definition shrinks_by_processed (marks : list Milestone) : Prop :=
  ∀ i previous id next,
    marks !! i = Some (progress_published previous) →
    marks !! (i + 1)%nat = Some (bank_sync_called [id]) →
    marks !! (i + 2)%nat = Some (progress_published next) →
    previous = id :: next.

(** * Worked examples *)

Section Examples.
Local Open Scope string_scope.
Local Open Scope list_scope.

(** The three accounts of the ordering example. *)
Definition accountA : AccountEntity.t := plainAccount "A" 0 2.
Definition accountB : AccountEntity.t := plainAccount "B" 1 1.
Definition accountC : AccountEntity.t := plainAccount "C" 0 1.

(** A closed account and an open account, both synced through
    SimpleFin. *)
Definition closedSimpleFin : AccountEntity.t :=
  AccountEntity.mk "S" (Some "bank-2") 1 0 0 3 (Some "simpleFin").
Definition openSimpleFin : AccountEntity.t :=
  AccountEntity.mk "T" (Some "bank-2") 0 0 0 3 (Some "simpleFin").

(** Three accounts answering with new transactions `t1`; none;
    `t2` and `t1`. *)
Definition first : AccountEntity.t := plainAccount "first" 0 1.
Definition second : AccountEntity.t := plainAccount "second" 0 2.
Definition third : AccountEntity.t := plainAccount "third" 0 3.

Definition answers (id : string) : SyncResponseWithErrors :=
  if bool_decide (id = "first") then okResponse ["t1"]
  else if bool_decide (id = "third") then okResponse ["t2"; "t1"]
  else okResponse [].

Definition quiet (id : string) : SyncResponseWithErrors := okResponse [].

(** A response whose first issue is a classified sync error, and a world
    in which a run is in progress and account B is marked as failed. *)
Definition brokenLink : SyncResponseWithErrors :=
  {| errors := [SyncError "X" "Y" "link broken";
                OtherError "timeout" (Some "ETIMEDOUT")];
     newTransactions := []; matchedTransactions := [];
     updatedAccounts := [] |}.

Definition busyWorld : World unit :=
  {| account := {| failedAccounts := {["B" := ("X", "Y")]};
                   accountsSyncing := ["A"; "B"] |};
     queries_accounts := [accountA; accountB; accountC];
     server := tt |}.

(** A run over a store and a backend that hold the same accounts. *)
Definition runOn (accounts : list AccountEntity.t)
    (bank_sync : string → SyncResponseWithErrors) (id : option string)
  : bool * World unit * list Event :=
  syncAccounts (tableBackend accounts bank_sync) id (idleWorld accounts).
End Examples.

(** ** More observations on the events of a run *)

(** The responses handed to [handleSyncResponse], each with the account id
    it is handled for: the pairs bundled in the answer of the batch call,
    and the id of each one-by-one call with its answer. *)
Definition classified (t : list Event) : list (string * SyncResponseWithErrors) :=
  t ≫= (λ e, match e with
             | SendSimplefinBatchSync _ answer => answer
             | SendAccountsBankSync ids answer =>
                 [(default empty_string (head ids), answer)]
             | _ => []
             end).

(** The number of `getAccounts` refreshes dispatched. *)
Definition refreshes (t : list Event) : nat :=
  length (omap (λ e, match e with
                     | Dispatch getAccounts => Some tt
                     | _ => None
                     end) t).

(** All the account ids that the sync requests of a trace carry. *)
Definition requested_ids (t : list Event) : list string :=
  t ≫= (λ e, match e with
             | SendSimplefinBatchSync ids _ => ids
             | SendAccountsBankSync ids _ => ids
             | _ => []
             end).

(** The lists published as sync progress, in order. *)
Definition published_progress (t : list Event) : list (list string) :=
  omap (λ e, match e with
             | Dispatch (setAccountsSyncing ids) => Some ids
             | _ => None
             end) t.

(** The notification raised for an issue. *)
Definition notice (error : SyncIssue) : string * string * option string :=
  match error with
  | SyncError _ _ message => ("error"%string, message, None)
  | OtherError message internal => ("error"%string, message, internal)
  end.

(** The effect of one action on the failure entry of account [x]. *)
Definition entry_step (x : string) (entry : option (string * string))
    (a : Action) : option (string * string) :=
  match a with
  | markAccountFailed id errorType errorCode =>
      if decide (id = x) then Some (errorType, errorCode) else entry
  | markAccountSuccess id => if decide (id = x) then None else entry
  | _ => entry
  end.

(** ** unlinkAccount, linkAccount, linkAccountSimpleFin, moveAccount *)

(** Modelled from the spec: the types `SyncServerGoCardlessAccount` and
    `SyncServerSimpleFinAccount` (types/models) and the handlers behind
    the four `send` calls are not part of the sources; the payload types
    are parameters and a handler is any function on the backend state.
    The answers of these calls are not used by the thunks. *)
Section OtherThunks.
Context {Server GoCardlessAccount SimpleFinAccount : Type}.

Inductive LinkRequest : Type :=
| account_unlink (id : string)
| gocardless_accounts_link (requisitionId : string)
    (account : GoCardlessAccount) (upgradingId : option string)
    (offBudget : option bool)
| simplefin_accounts_link (externalAccount : SimpleFinAccount)
    (upgradingId : option string) (offBudget : option bool)
| account_move (id : string) (targetId : option string).

(** `getPayees` belongs to the queries slice, like `getAccounts`. *)
Inductive LinkEvent : Type :=
| Sent (request : LinkRequest)
| Dispatched (action : Action)
| DispatchedGetPayees.

Context (handle : LinkRequest → Server → Server).

Definition LinkThunk (A : Type) : Type :=
  World Server → A * World Server * list LinkEvent.

Definition link_then {A B} (m : LinkThunk A) (k : LinkThunk B) : LinkThunk B :=
  λ w, let '(_, w1, t1) := m w in
       let '(b, w2, t2) := k w1 in
       (b, w2, t1 ++ t2).

Definition link_send (request : LinkRequest) : LinkThunk unit :=
  λ w, (tt,
        {| account := account w;
           queries_accounts := queries_accounts w;
           server := handle request (server w) |},
        [Sent request]).

Definition link_dispatch (action : Action) : LinkThunk unit :=
  λ w, (tt,
        {| account := reducer (account w) action;
           queries_accounts := queries_accounts w;
           server := server w |},
        [Dispatched action]).

Definition link_dispatch_getPayees : LinkThunk unit :=
  λ w, (tt, w, [DispatchedGetPayees]).

Definition unlinkAccount (id : string) : LinkThunk unit :=
  link_then (link_send (account_unlink id))
    (link_then (link_dispatch (markAccountSuccess id))
       (link_dispatch getAccounts)).

Definition linkAccount (requisitionId : string) (account : GoCardlessAccount)
    (upgradingId : option string) (offBudget : option bool)
  : LinkThunk unit :=
  link_then
    (link_send
       (gocardless_accounts_link requisitionId account upgradingId offBudget))
    (link_then link_dispatch_getPayees (link_dispatch getAccounts)).

Definition linkAccountSimpleFin (externalAccount : SimpleFinAccount)
    (upgradingId : option string) (offBudget : option bool)
  : LinkThunk unit :=
  link_then
    (link_send (simplefin_accounts_link externalAccount upgradingId offBudget))
    (link_then link_dispatch_getPayees (link_dispatch getAccounts)).

Definition moveAccount (id : string) (targetId : option string)
  : LinkThunk unit :=
  link_then (link_send (account_move id targetId))
    (link_then (link_dispatch getAccounts) link_dispatch_getPayees).
End OtherThunks.

(** The requests sent and the slice actions dispatched by such a thunk. *)
Definition link_requests {G S} (t : list (@LinkEvent G S))
  : list (@LinkRequest G S) :=
  omap (λ e, match e with Sent request => Some request | _ => None end) t.

(** ** calculateHasWarning (CustomReportListCards) *)

(** Modelled from the spec: the type of a condition's `value`
    (`CustomReportEntity`, types/models/reports) is not part of the
    sources; it is a parameter, and so is the conversion `String(value)`.
    Of a report only `conditions`, which may be missing, is read, and of a
    condition only `field` and `value`. *)
Section ReportWarning.
Context {Value : Type} (toString : Value → string).

Record Condition : Type := {
  field : string;
  value : Value;
}.

Record CustomReportEntity : Type := {
  conditions : option (list Condition);
}.

Record IdSets : Type := {
  categoryIds : gset string;
  accountIds : gset string;
  payeeIds : gset string;
}.

(** The loop over the conditions, with its early returns. *)
Fixpoint warningLoop (conds : list Condition) (ids : IdSets) : bool :=
  match conds with
  | [] => false
  | c :: rest =>
      let strValue := toString (value c) in
      if bool_decide (field c = "account"%string) then
        if negb (bool_decide (strValue ∈ accountIds ids)) then true
        else warningLoop rest ids
      else if bool_decide (field c = "payee"%string) then
        if negb (bool_decide (strValue ∈ payeeIds ids)) then true
        else warningLoop rest ids
      else if bool_decide (field c = "category"%string) then
        if negb (bool_decide (strValue ∈ categoryIds ids)) then true
        else warningLoop rest ids
      else warningLoop rest ids
  end.

Definition calculateHasWarning (report : CustomReportEntity) (ids : IdSets)
  : bool :=
  match conditions report with
  | None => false
  | Some conds => warningLoop conds ids
  end.

(** `hasWarning` as the card computes it, from the ids of the categories,
    payees and accounts that exist. *)
Definition hasWarning (report : CustomReportEntity)
    (categories payees accounts : list string) : bool :=
  calculateHasWarning report
    {| categoryIds := list_to_set categories;
       payeeIds := list_to_set payees;
       accountIds := list_to_set accounts |}.

(** A condition on an account, payee or category whose value names none
    of the ids in [ids]. *)
Definition dangling (ids : IdSets) (c : Condition) : Prop :=
  (field c = "account"%string ∧ toString (value c) ∉ accountIds ids)
  ∨ (field c = "payee"%string ∧ toString (value c) ∉ payeeIds ids)
  ∨ (field c = "category"%string ∧ toString (value c) ∉ categoryIds ids).
End ReportWarning.

(** ** FocusableAmountInput.maybeApplyNegative *)

(** Amounts are JavaScript numbers; the finite ones are modelled as
    rationals, on which `Math.abs` and negation are exact. *)
Definition maybeApplyNegative (amount : Q) (negative : bool) : Q :=
  let absValue := Qabs amount in
  if negative then Qopp absValue else absValue.

(** An action that marks account [id] as failed or as healthy. *)
Definition marks (id : string) (a : Action) : Prop :=
  (∃ errorType errorCode, a = markAccountFailed id errorType errorCode)
  ∨ a = markAccountSuccess id.

#[global] Instance classifier_action_dec (a : Action) :
  Decision (classifier_action a).
Proof. destruct a; simpl; apply _. Defined.

(** What a response does to the failure entry [entry] of account [x] when
    it is handled for account [p.1]. *)
Definition verdict_for (x : string) (entry : option (string * string))
    (p : string * SyncResponseWithErrors) : option (string * string) :=
  if decide (p.1 = x) then verdict entry p.2 else entry.

(** A report with one condition on account A and one on the notes. *)
Definition reportOnAccountA : @CustomReportEntity string :=
  {| conditions :=
       Some [ {| field := "account"%string; value := "A"%string |};
              {| field := "notes"%string; value := "rent"%string |} ] |}.

(** ** Backend calls that are rejected *)

(** `await send(...)` may reject instead of giving an answer; the thunk
    then stops where it is.  A fallible handler answers [None] for a
    rejected call.  The events of a run are its dispatches and its
    answered calls: a rejected call leaves no event. *)
Record FallibleBackend (Server : Type) : Type := {
  try_accounts_get : Server → option (list AccountEntity.t) * Server;
  try_simplefin_batch_sync :
    list string → Server
    → option (list (string * SyncResponseWithErrors)) * Server;
  try_accounts_bank_sync :
    list string → Server → option SyncResponseWithErrors * Server;
}.
Arguments try_accounts_get {Server}.
Arguments try_simplefin_batch_sync {Server}.
Arguments try_accounts_bank_sync {Server}.

(** A thunk that may stop at a rejected call: the result is [None] then. *)
Definition Attempt (Server A : Type) : Type :=
  World Server → option A * World Server * list Event.

Definition attempt_ret {Server A} (a : A) : Attempt Server A :=
  λ w, (Some a, w, []).

Definition attempt_bind {Server A B} (m : Attempt Server A)
    (k : A → Attempt Server B) : Attempt Server B :=
  λ w, let '(a, w1, t1) := m w in
       match a with
       | None => (None, w1, t1)
       | Some a =>
           let '(b, w2, t2) := k a w1 in
           (b, w2, t1 ++ t2)
       end.

(** A part of a thunk that makes no call always goes through. *)
Definition attempt {Server A} (m : Thunk Server A) : Attempt Server A :=
  λ w, let '(a, w1, t) := m w in (Some a, w1, t).

Declare Scope attempt_scope.
Delimit Scope attempt_scope with attempt.
Notation "x <- m ;; k" := (attempt_bind m (λ x, k))
  (at level 100, m at next level, k at level 200, right associativity)
  : attempt_scope.
Notation "m ;; k" := (attempt_bind m (λ _, k))
  (at level 100, k at level 200, right associativity) : attempt_scope.

Fixpoint try_for_idx {Server S} (count : nat) (idx : nat)
    (body : nat → S → Attempt Server S) (s : S) : Attempt Server S :=
  match count with
  | O => attempt_ret s
  | Datatypes.S count' =>
      attempt_bind (body idx s)
        (λ s', try_for_idx count' (Datatypes.S idx) body s')
  end.

Section FallibleThunks.
Context {Server : Type} (backend : FallibleBackend Server).

Local Open Scope attempt_scope.

Definition try_with_server {R} (handler : Server → option R * Server)
    (log : R → Event) : Attempt Server R :=
  λ w, let '(r, s') := handler (server w) in
       (r,
        {| account := account w;
           queries_accounts := queries_accounts w;
           server := s' |},
        match r with Some answer => [log answer] | None => [] end).

Definition try_send_accounts_get : Attempt Server (list AccountEntity.t) :=
  try_with_server (try_accounts_get backend) SendAccountsGet.

Definition try_send_simplefin_batch_sync (ids : list string)
  : Attempt Server (list (string * SyncResponseWithErrors)) :=
  try_with_server (try_simplefin_batch_sync backend ids)
    (SendSimplefinBatchSync ids).

Definition try_send_accounts_bank_sync (ids : list string)
  : Attempt Server SyncResponseWithErrors :=
  try_with_server (try_accounts_bank_sync backend ids)
    (SendAccountsBankSync ids).

(** Body of the one-by-one loop. *)
Definition trySyncOne (ids : list string) (idx : nat)
    (s : bool * ResultArrays) : Attempt Server (bool * ResultArrays) :=
  let accountId := default empty_string (ids !! idx) in
  res <- try_send_accounts_bank_sync [accountId] ;;
  s' <- attempt (handleAndFlag accountId res s) ;;
  (* Dispatch the ids for the accounts that are yet to be synced *)
  attempt (dispatch (setAccountsSyncing (drop (idx + 1) ids))) ;;
  attempt_ret s'.

(** [syncAccounts] with calls that may be rejected. *)
Definition trySyncAccounts (id : option string) : Attempt Server bool :=
  (* Disallow two parallel sync operations *)
  accountsState <- attempt getState_account ;;
  if (0 <? length (accountsSyncing accountsState))%nat
  then attempt_ret false else
  let batchSync := negb (truthy id) in
  queriesState <- attempt getState_queries ;;
  let ids := accountIdsToSync id queriesState in
  attempt (dispatch (setAccountsSyncing ids)) ;;
  accountsData <- try_send_accounts_get ;;
  let sfas := simpleFinAccounts accountsData in
  p <-
    (if batchSync && (0 <? length sfas)%nat then
       res <- try_send_simplefin_batch_sync (AccountEntity.id <$> sfas) ;;
       s <- attempt
              (for_of res (λ account, handleAndFlag account.1 account.2)
                 (false, emptyArrays)) ;;
       attempt_ret (s, withoutSimpleFin sfas ids)
     else attempt_ret ((false, emptyArrays), ids)) ;;
  let s := fst p in
  let ids := snd p in
  (* Loop through the accounts and perform sync operation.. one by one *)
  s <- try_for_idx (length ids) 0 (trySyncOne ids) s ;;
  attempt (dispatch (setNewTransactions (snd s))) ;;
  attempt (dispatch (setAccountsSyncing [])) ;;
  attempt_ret (fst s).

(** The last phase of [trySyncAccounts], from the one-by-one loop on. *)
Definition tryFinish (ids : list string) (s : bool * ResultArrays)
  : Attempt Server bool :=
  s <- try_for_idx (length ids) 0 (trySyncOne ids) s ;;
  attempt (dispatch (setNewTransactions (snd s))) ;;
  attempt (dispatch (setAccountsSyncing [])) ;;
  attempt_ret (fst s).
End FallibleThunks.

(** The backend whose calls are all answered, by the handlers of
    [backend]. *)
Definition answering {Server} (backend : Backend Server)
  : FallibleBackend Server :=
  {| try_accounts_get :=
       λ s, let '(r, s') := accounts_get backend s in (Some r, s');
     try_simplefin_batch_sync :=
       λ ids s, let '(r, s') := simplefin_batch_sync backend ids s in
                (Some r, s');
     try_accounts_bank_sync :=
       λ ids s, let '(r, s') := accounts_bank_sync backend ids s in
                (Some r, s') |}.

(** A table-driven backend that rejects every `accounts-bank-sync` call
    for the account [down]. *)
Definition flakyBackend (accountsData : list AccountEntity.t)
    (bank_sync : string → SyncResponseWithErrors) (down : string)
  : FallibleBackend unit :=
  {| try_accounts_get := λ s, (Some accountsData, s);
     try_simplefin_batch_sync :=
       λ ids s, (Some ((λ id, (id, bank_sync id)) <$> ids), s);
     try_accounts_bank_sync :=
       λ ids s,
         let id := default empty_string (head ids) in
         (if bool_decide (id = down) then None else Some (bank_sync id), s) |}.

(** The success flag of a run agrees with its result arrays. *)
Definition flag_agrees (s : bool * ResultArrays) : Prop :=
  s.1 = true
  ↔ resNewTransactions s.2 ≠ [] ∨ resMatchedTransactions s.2 ≠ [].


(** * Lemmas *)

Section RunLemmas.
Context {Server : Type}.
Implicit Types w : World Server.

Lemma result_bind {A B} (m : Thunk Server A) (k : A → Thunk Server B) w :
  result (bind m k w) = result (k (result (m w)) (final (m w))).
Proof.
  unfold bind, result, final.
  destruct (m w) as [[a w1] t1]; simpl.
  by destruct (k a w1) as [[b w2] t2].
Qed.

Lemma final_bind {A B} (m : Thunk Server A) (k : A → Thunk Server B) w :
  final (bind m k w) = final (k (result (m w)) (final (m w))).
Proof.
  unfold bind, result, final.
  destruct (m w) as [[a w1] t1]; simpl.
  by destruct (k a w1) as [[b w2] t2].
Qed.

Lemma trace_bind {A B} (m : Thunk Server A) (k : A → Thunk Server B) w :
  trace (bind m k w)
  = trace (m w) ++ trace (k (result (m w)) (final (m w))).
Proof.
  unfold bind, result, final, trace.
  destruct (m w) as [[a w1] t1]; simpl.
  by destruct (k a w1) as [[b w2] t2].
Qed.

Lemma run_eta {A} (r : A * World Server * list Event) :
  r = (result r, final r, trace r).
Proof. by destruct r as [[a w] t]. Qed.

Lemma bind_run {A B} (m : Thunk Server A) (k : A → Thunk Server B) w
    a w1 t1 :
  m w = (a, w1, t1) →
  bind m k w = (result (k a w1), final (k a w1), t1 ++ trace (k a w1)).
Proof.
  intros Hm. unfold bind. rewrite Hm.
  by destruct (k a w1) as [[b w2] t2].
Qed.

Lemma bind_runs {A B} (m : Thunk Server A) (k : A → Thunk Server B) w
    a w1 t1 b w2 t2 :
  m w = (a, w1, t1) → k a w1 = (b, w2, t2) →
  bind m k w = (b, w2, t1 ++ t2).
Proof. intros Hm Hk. unfold bind. by rewrite Hm, Hk. Qed.

Lemma after_actions_nil w : after_actions w [] = w.
Proof. by destruct w. Qed.

Lemma after_actions_app w l1 l2 :
  after_actions w (l1 ++ l2) = after_actions (after_actions w l1) l2.
Proof. unfold after_actions; simpl. by rewrite foldl_app. Qed.

Lemma dispatch_run action w :
  dispatch action w = (tt, after_actions w [action], [Dispatch action]).
Proof. reflexivity. Qed.

Lemma for_of_ext {X S} (body1 body2 : X → S → Thunk Server S) xs s w :
  (∀ x s' w', body1 x s' w' = body2 x s' w') →
  for_of xs body1 s w = for_of xs body2 s w.
Proof.
  intros Hbody. revert s w.
  induction xs as [|x xs IH]; intros s w; simpl; [done|].
  unfold bind. rewrite Hbody.
  destruct (body2 x s w) as [[s1 w1] t1]. by rewrite IH.
Qed.

(** The notification loop only dispatches, one action per issue. *)
Lemma notify_loop_run (errs : list SyncIssue) w :
  for_of errs (λ error _, dispatch (notification_of error)) tt w
  = (tt, after_actions w (notification_of <$> errs),
     Dispatch <$> (notification_of <$> errs)).
Proof.
  revert w. induction errs as [|e errs IH]; intros w; simpl.
  - by rewrite after_actions_nil.
  - erewrite bind_run by apply dispatch_run.
    rewrite IH. unfold result, final, trace; simpl.
    by rewrite <- after_actions_app.
Qed.

Lemma handleSyncResponse_run accountId res arrays w :
  handleSyncResponse accountId res arrays w
  = ((contributes res, push arrays res),
     after_actions w (handle_actions accountId res),
     Dispatch <$> handle_actions accountId res).
Proof.
  unfold handleSyncResponse, handle_actions.
  set (notify := for_of (errors res) _ tt).
  assert (Hnotify : ∀ w', notify w'
    = (tt, after_actions w' (notification_of <$> errors res),
       Dispatch <$> (notification_of <$> errors res))).
  { intros w'. subst notify. rewrite <- notify_loop_run.
    apply for_of_ext. by intros [] [] ?. }
  assert (Hrest : ∀ w', bind notify
      (λ _, bind (dispatch getAccounts)
         (λ _, ret (contributes res, push arrays res))) w'
    = ((contributes res, push arrays res),
       after_actions w' ((notification_of <$> errors res) ++ [getAccounts]),
       Dispatch <$> ((notification_of <$> errors res) ++ [getAccounts]))).
  { intros w'. erewrite bind_run by apply Hnotify.
    erewrite bind_run by apply dispatch_run.
    unfold ret, result, final, trace; simpl.
    by rewrite after_actions_app, fmap_app. }
  unfold health_action.
  destruct (errors res) as [|[category code message|message internal] errs]
    eqn:Herrs.
  - erewrite bind_run by apply dispatch_run.
    rewrite Hrest. unfold result, final, trace; simpl.
    by rewrite <- after_actions_app.
  - erewrite bind_run by apply dispatch_run.
    rewrite Hrest. unfold result, final, trace; simpl.
    by rewrite <- after_actions_app.
  - erewrite bind_run by reflexivity.
    rewrite Hrest. by unfold result, final, trace.
Qed.
End RunLemmas.

(** ** The response classifier *)

Section Classifier.
Context {Server : Type}.
Implicit Types w : World Server.

Lemma reducer_notifications (errs : list SyncIssue) state :
  foldl reducer state (notification_of <$> errs) = state.
Proof.
  induction errs as [|[] errs IH]; simpl; auto.
Qed.

(** Of all the actions of one call, only the first one can change the
    slice. *)
Lemma reducer_handle_actions accountId res state :
  foldl reducer state (handle_actions accountId res)
  = from_option (reducer state) state (health_action accountId res).
Proof.
  unfold handle_actions. rewrite !foldl_app; simpl.
  rewrite reducer_notifications.
  by destruct (health_action accountId res).
Qed.

Lemma account_after_handle accountId res arrays w :
  account (final (handleSyncResponse accountId res arrays w))
  = from_option (reducer (account w)) (account w)
      (health_action accountId res).
Proof.
  rewrite handleSyncResponse_run. unfold final; simpl.
  apply reducer_handle_actions.
Qed.

Lemma health_action_head accountId res :
  health_action accountId res
  = match head (errors res) with
    | None => Some (markAccountSuccess accountId)
    | Some (SyncError category code _) =>
        Some (markAccountFailed accountId category code)
    | Some (OtherError _ _) => None
    end.
Proof. unfold health_action. by destruct (errors res) as [|[]]. Qed.
End Classifier.

Section ClassifierProperties.
Context {Server : Type}.
Implicit Types w : World Server.

(** C4. The health transition of [handleSyncResponse] is decided by the
    first issue of the response alone: a `SyncError` first issue writes
    (or overwrites) the entry of the account with its category and code,
    an empty error list deletes the entry, and any other first issue
    leaves [failedAccounts] exactly as it was, whatever issues follow. *)
Theorem handleSyncResponse_first_issue accountId res arrays w :
  failedAccounts (account (final (handleSyncResponse accountId res arrays w)))
  = match head (errors res) with
    | None => delete accountId (failedAccounts (account w))
    | Some (SyncError category code _) =>
        <[accountId := (category, code)]> (failedAccounts (account w))
    | Some (OtherError _ _) => failedAccounts (account w)
    end.
Proof.
  rewrite account_after_handle, health_action_head.
  by destruct (head (errors res)) as [[]|].
Qed.

(** C8. [handleSyncResponse] raises exactly one error notification per
    issue of the response, in order: with the message alone for a
    `SyncError`, with the message and the `internal` detail (when there
    is one) for any other issue. *)
Theorem handleSyncResponse_notifications accountId res arrays w :
  notifications (trace (handleSyncResponse accountId res arrays w))
  = (λ error,
       match error with
       | SyncError _ _ message => ("error"%string, message, None)
       | OtherError message internal => ("error"%string, message, internal)
       end) <$> errors res.
Proof.
  rewrite handleSyncResponse_run. unfold trace; simpl.
  unfold handle_actions, notifications.
  rewrite !fmap_app, !omap_app; simpl.
  rewrite app_nil_r.
  replace (omap _ (Dispatch <$> option_list (health_action accountId res)))
    with (@nil (string * string * option string)).
  - simpl. induction (errors res) as [|[] errs IH]; simpl; [done|..];
      f_equal; exact IH.
  - unfold health_action. by destruct (errors res) as [|[]].
Qed.

(** C10. [handleSyncResponse] for account [accountId] touches at most the
    [failedAccounts] entry of [accountId]: the entry of every other id
    and the [accountsSyncing] list are as before the call. *)
Theorem handleSyncResponse_frame accountId res arrays w other :
  other ≠ accountId →
  let w' := final (handleSyncResponse accountId res arrays w) in
  failedAccounts (account w') !! other = failedAccounts (account w) !! other
  ∧ accountsSyncing (account w') = accountsSyncing (account w).
Proof.
  intros Hother w'. subst w'. rewrite account_after_handle.
  unfold health_action.
  destruct (errors res) as [|[]]; simpl; split; try done.
  - by rewrite lookup_delete_ne.
  - by rewrite lookup_insert_ne.
Qed.

(** The entry of the account after one response. *)
Lemma handleSyncResponse_verdict accountId res arrays w :
  failedAccounts (account (final (handleSyncResponse accountId res arrays w)))
    !! accountId
  = verdict (failedAccounts (account w) !! accountId) res.
Proof.
  rewrite handleSyncResponse_first_issue. unfold verdict.
  destruct (head (errors res)) as [[]|].
  - by rewrite lookup_insert_eq.
  - done.
  - by rewrite lookup_delete_eq.
Qed.

(** C7. The failure entry of an account after two consecutive responses
    is last-writer-wins: a response whose first issue is a `SyncError`
    with category [category] and code [code], followed by an error-free
    response, leaves no entry; the reverse order leaves exactly
    [(category, code)]; and in general the entry is the verdict of the
    second response over the verdict of the first, so it is a single
    category/code pair (or the entry found at the start), never a
    combination of past failures. *)
Theorem failure_last_writer_wins accountId w arrays1 arrays2
    (failed ok : SyncResponseWithErrors) category code message rest :
  errors failed = SyncError category code message :: rest →
  errors ok = [] →
  let entry_after r1 r2 :=
    failedAccounts (account (final (handleSyncResponse accountId r2 arrays2
      (final (handleSyncResponse accountId r1 arrays1 w))))) !! accountId in
  entry_after failed ok = None
  ∧ entry_after ok failed = Some (category, code)
  ∧ ∀ r1 r2,
      entry_after r1 r2
      = verdict (verdict (failedAccounts (account w) !! accountId) r1) r2.
Proof.
  intros Hfailed Hok entry_after. subst entry_after; simpl.
  assert (Hgen : ∀ r1 r2,
    failedAccounts (account (final (handleSyncResponse accountId r2 arrays2
      (final (handleSyncResponse accountId r1 arrays1 w))))) !! accountId
    = verdict (verdict (failedAccounts (account w) !! accountId) r1) r2).
  { intros r1 r2. by rewrite !handleSyncResponse_verdict. }
  split_and!; [| |done].
  - rewrite Hgen. unfold verdict. by rewrite Hok.
  - rewrite Hgen. unfold verdict. by rewrite Hfailed.
Qed.
End ClassifierProperties.

(** ** Array.prototype.sort *)

Section ArraySortLemmas.
Context {A : Type} (compareFn : A → A → Z).

Lemma sort_insert_Permutation a l : sort_insert compareFn a l ≡ₚ a :: l.
Proof.
  induction l as [|b l IH]; simpl; [done|].
  destruct (compareFn a b <=? 0); [done|].
  rewrite IH. apply Permutation_swap.
Qed.

Lemma sort_Permutation l : sort compareFn l ≡ₚ l.
Proof.
  induction l as [|a l IH]; simpl; [done|].
  by rewrite sort_insert_Permutation, IH.
Qed.

(** For a consistent comparator the result is in order. *)
Context (compare_total : ∀ a b, ¬ sorts_before compareFn a b → sorts_before compareFn b a).
Context (compare_trans : Transitive (sorts_before compareFn)).

Lemma sort_insert_sorted a l :
  StronglySorted (sorts_before compareFn) l →
  StronglySorted (sorts_before compareFn) (sort_insert compareFn a l).
Proof.
  induction 1 as [|b l Hl IH Hb]; simpl.
  - repeat constructor.
  - destruct (Z.leb_spec (compareFn a b) 0) as [Hab|Hab].
    + constructor; [by constructor|].
      constructor; [done|].
      eapply Forall_impl; [exact Hb|].
      intros c Hbc. by transitivity b.
    + constructor; [done|].
      rewrite sort_insert_Permutation.
      constructor; [|done].
      apply compare_total. unfold sorts_before. lia.
Qed.

Lemma sort_sorted l : StronglySorted (sorts_before compareFn) (sort compareFn l).
Proof.
  induction l as [|a l IH]; simpl; [constructor|].
  by apply sort_insert_sorted.
Qed.

(** The sort is stable: among the elements of one key class (a class that
    the comparator sees as ties), the original order is kept. *)
Lemma sort_stable (P : A → Prop) `{!∀ a, Decision (P a)} l :
  (∀ a b, P a → P b → sorts_before compareFn a b) →
  filter P (sort compareFn l) = filter P l.
Proof.
  intros Hties.
  assert (Hins : ∀ a k,
    filter P (sort_insert compareFn a k) = filter P (a :: k)).
  { intros a k. induction k as [|b k IH]; simpl; [done|].
    destruct (Z.leb_spec (compareFn a b) 0) as [Hab|Hab]; [done|].
    rewrite filter_cons, IH, !filter_cons.
    destruct (decide (P b)) as [Hb|]; [|done].
    destruct (decide (P a)) as [Ha|]; [|done].
    specialize (Hties a b Ha Hb). unfold sorts_before in Hties. lia. }
  induction l as [|a l IH]; simpl; [done|].
  by rewrite Hins, !filter_cons, IH.
Qed.
End ArraySortLemmas.

(** ** The sync planner *)

Lemma compareAccounts_le a b :
  sorts_before compareAccounts a b ↔ account_le a b.
Proof.
  unfold sorts_before, compareAccounts, account_le.
  destruct (Z.eqb_spec (AccountEntity.offbudget a) (AccountEntity.offbudget b));
    lia.
Qed.

Lemma StronglySorted_weaken {A} (R1 R2 : relation A) l :
  (∀ a b, R1 a b → R2 a b) → StronglySorted R1 l → StronglySorted R2 l.
Proof.
  intros HR. induction 1 as [|a l Hl IH Ha]; constructor; [done|].
  eapply Forall_impl; [exact Ha|]. auto.
Qed.

Lemma sort_accounts_sorted l :
  StronglySorted account_le (sort compareAccounts l).
Proof.
  eapply StronglySorted_weaken; [|apply sort_sorted].
  - intros a b. apply compareAccounts_le.
  - intros a b. rewrite !compareAccounts_le. unfold account_le. lia.
  - intros a b c. rewrite !compareAccounts_le. unfold account_le. lia.
Qed.

Lemma syncable_spec a :
  syncable a = true
  ↔ (∃ bank, AccountEntity.bank a = Some bank ∧ bank ≠ empty_string)
    ∧ AccountEntity.closed a = 0 ∧ AccountEntity.tombstone a = 0.
Proof.
  unfold syncable, truthy, truthy_num.
  rewrite !andb_true_iff, !negb_true_iff, !negb_false_iff, !Z.eqb_eq.
  destruct (AccountEntity.bank a) as [bank|]; simpl.
  - rewrite negb_true_iff, bool_decide_eq_false. split.
    + intros [[Hbank ?] ?]. split_and!; eauto.
    + intros [(bank' & [= <-] & Hbank) [? ?]]. done.
  - split; [by intros [[[=] _] _]|]. by intros [(? & [=] & _) _].
Qed.

(** ** The shape of a run *)
Lemma flag_steps b rs : foldl flag_step b rs = b || existsb contributes rs.
Proof.
  revert b. induction rs as [|r rs IH]; intros b; simpl.
  - by rewrite orb_false_r.
  - rewrite IH. unfold flag_step. by destruct (contributes r), b.
Qed.

Lemma dispatched_app t1 t2 :
  dispatched (t1 ++ t2) = dispatched t1 ++ dispatched t2.
Proof. apply omap_app. Qed.

Lemma dispatched_cons e t :
  dispatched (e :: t)
  = match e with Dispatch a => a :: dispatched t | _ => dispatched t end.
Proof. by destruct e. Qed.

Lemma dispatched_Dispatch actions : dispatched (Dispatch <$> actions) = actions.
Proof. induction actions as [|a l IH]; simpl; [done|]. by f_equal. Qed.

Section RunShape.
Context {Server : Type} (backend : Backend Server).
Implicit Types w : World Server.

Lemma handleAndFlag_run accountId res s w :
  handleAndFlag accountId res s w
  = ((flag_step (fst s) res, push (snd s) res),
     after_actions w (handle_actions accountId res),
     Dispatch <$> handle_actions accountId res).
Proof.
  unfold handleAndFlag.
  erewrite bind_run by apply handleSyncResponse_run.
  unfold ret, result, final, trace; simpl. by rewrite app_nil_r.
Qed.

Lemma batch_loop_run (answer : list (string * SyncResponseWithErrors)) s w :
  for_of answer (λ account, handleAndFlag account.1 account.2) s w
  = ((foldl flag_step (fst s) (snd <$> answer),
      foldl push (snd s) (snd <$> answer)),
     after_actions w (batch_actions answer),
     Dispatch <$> batch_actions answer).
Proof.
  revert s w. induction answer as [|[accountId res] answer IH];
    intros s w; simpl.
  - rewrite after_actions_nil. by destruct s.
  - erewrite bind_run by apply handleAndFlag_run.
    rewrite IH. unfold result, final, trace, batch_actions; simpl.
    by rewrite after_actions_app, fmap_app.
Qed.

Lemma syncOne_run all idx s w :
  let accountId := default empty_string (all !! idx) in
  let res := (accounts_bank_sync backend [accountId] (server w)).1 in
  let actions :=
    handle_actions accountId res
    ++ [setAccountsSyncing (drop (idx + 1) all)] in
  syncOne backend all idx s w
  = ((flag_step (fst s) res, push (snd s) res),
     {| account := foldl reducer (account w) actions;
        queries_accounts := queries_accounts w;
        server := (accounts_bank_sync backend [accountId] (server w)).2 |},
     SendAccountsBankSync [accountId] res :: (Dispatch <$> actions)).
Proof.
  intros accountId res actions. unfold syncOne.
  fold accountId.
  assert (Hsend : send_accounts_bank_sync backend [accountId] w
    = (res,
       {| account := account w; queries_accounts := queries_accounts w;
          server := (accounts_bank_sync backend [accountId] (server w)).2 |},
       [SendAccountsBankSync [accountId] res])).
  { unfold send_accounts_bank_sync, with_server. subst res.
    by destruct (accounts_bank_sync backend [accountId] (server w)). }
  erewrite bind_run by apply Hsend.
  erewrite bind_run by apply handleAndFlag_run.
  erewrite bind_run by apply dispatch_run.
  unfold ret, result, final, trace, after_actions; simpl.
  subst actions. rewrite foldl_app, fmap_app. reflexivity.
Qed.

Lemma sequential_loop_run pre suf s w :
  let r := for_idx (length suf) (length pre)
             (syncOne backend (pre ++ suf)) s w in
  let answers := (bank_sync_answers backend suf (server w)).1 in
  result r = (foldl flag_step (fst s) answers, foldl push (snd s) answers)
  ∧ trace r = sequential_events (pre ++ suf) (length pre) suf answers
  ∧ server (final r) = (bank_sync_answers backend suf (server w)).2
  ∧ queries_accounts (final r) = queries_accounts w
  ∧ account (final r) = foldl reducer (account w) (dispatched (trace r)).
Proof.
  revert pre s w. induction suf as [|id suf IH]; intros pre s w; simpl.
  - unfold ret, result, final, trace; simpl. by destruct s.
  - pose proof (syncOne_run (pre ++ id :: suf) (length pre) s w) as Hone.
    simpl in Hone. rewrite list_lookup_middle in Hone by done.
    simpl in Hone.
    destruct (accounts_bank_sync backend [id] (server w)) as [res srv1]
      eqn:Hsrv; simpl in Hone.
    erewrite bind_run by apply Hone.
    unfold result at 1 2. unfold final at 1 2 3. unfold trace at 1 2.
    simpl fst; simpl snd.
    set (w1 := {| account := _; queries_accounts := _; server := srv1 |}).
    specialize (IH (pre ++ [id]) (flag_step s.1 res, push s.2 res) w1).
    rewrite <- (assoc_L (++)) in IH. simpl in IH.
    rewrite length_app in IH. simpl in IH.
    replace (length pre + 1)%nat with (S (length pre)) in IH by lia.
    destruct IH as (IHr & IHt & IHs & IHq & IHa).
    destruct (bank_sync_answers backend suf srv1) as [answers srv2] eqn:Hans.
    simpl in *. rewrite Nat.add_1_r in *.
    split_and!; try done.
    + rewrite IHt, fmap_app, <- (assoc_L (++)). done.
    + unfold final at 1; simpl. rewrite IHa.
      change (dispatched (?e :: ?t)) with (dispatched t).
      by rewrite dispatched_app, dispatched_Dispatch, !foldl_app.
Qed.
End RunShape.

Section Run.
Context {Server : Type} (backend : Backend Server).
Implicit Types w : World Server.

(** A run that finds the lock taken does nothing. *)
Lemma syncAccounts_locked id w :
  accountsSyncing (account w) ≠ [] →
  syncAccounts backend id w = (false, w, []).
Proof.
  intros Hlocked. unfold syncAccounts.
  erewrite bind_run by reflexivity.
  destruct (accountsSyncing (account w)) as [|x l]; [done|].
  reflexivity.
Qed.

(** A run that finds the lock free goes through all its phases. *)
Lemma syncAccounts_run id w :
  accountsSyncing (account w) = [] →
  ∃ wf,
    syncAccounts backend id w
    = (existsb contributes (processedResponses backend id w), wf, run_events backend id w)
    ∧ account wf = foldl reducer (account w) (dispatched (run_events backend id w))
    ∧ queries_accounts wf = queries_accounts w.
Proof.
  intros Hidle. unfold syncAccounts.
  assert (Htail : ∀ (s : bool * ResultArrays) w',
    bind (dispatch (setNewTransactions s.2))
      (λ _, bind (dispatch (setAccountsSyncing [])) (λ _, ret s.1)) w'
    = (s.1,
       after_actions w' [setNewTransactions s.2; setAccountsSyncing []],
       [Dispatch (setNewTransactions s.2);
        Dispatch (setAccountsSyncing [])])) by reflexivity.
  set (ids := accountIdsToSync id (queries_accounts w)).
  set (w1 := after_actions w [setAccountsSyncing ids]).
  set (w2 := {| account := account w1;
                queries_accounts := queries_accounts w;
                server := (accounts_get backend (server w)).2 |}).
  assert (Hget : send_accounts_get backend w1
    = (fetchedAccounts backend w, w2, [SendAccountsGet (fetchedAccounts backend w)])).
  { unfold send_accounts_get, with_server, fetchedAccounts, w2. simpl.
    by destruct (accounts_get backend (server w)). }
  unfold run_events, processedResponses, batch_events, sequentialAnswers,
    sequentialIds, serverBeforeLoop.
  fold ids. unfold usesBatch.
  set (sfas := simpleFinAccounts (fetchedAccounts backend w)).
  destruct (negb (truthy id) && (0 <? length sfas)%nat) eqn:Hbatch.
  - (* the batch call is made *)
    set (w3 := {| account := account w1;
                  queries_accounts := queries_accounts w;
                  server := (simplefin_batch_sync backend (batchIds backend w)
                               (accounts_get backend (server w)).2).2 |}).
    assert (Hsend : send_simplefin_batch_sync backend
                      (AccountEntity.id <$> sfas) w2
      = (batchAnswer backend w, w3,
         [SendSimplefinBatchSync (batchIds backend w) (batchAnswer backend w)])).
    { unfold send_simplefin_batch_sync, with_server, batchAnswer, batchIds,
        w3. simpl. fold sfas.
      by destruct (simplefin_batch_sync backend _ _). }
    set (w4 := after_actions w3 (batch_actions (batchAnswer backend w))).
    set (s0 := (foldl flag_step false (snd <$> batchAnswer backend w),
                foldl push emptyArrays (snd <$> batchAnswer backend w))).
    set (seqIds := withoutSimpleFin sfas ids).
    destruct (sequential_loop_run backend [] seqIds s0 w4)
      as (Hr & Ht & Hs & Hq & Ha).
    cbn [length app] in Hr, Ht, Hs, Hq, Ha.
    set (loop := for_idx (length seqIds) 0 (syncOne backend seqIds) s0 w4)
      in *.
    exists (after_actions (final loop)
              [setNewTransactions (result loop).2; setAccountsSyncing []]).
    split_and!.
    + erewrite bind_runs; [|reflexivity|]; last first.
      { cbv beta. rewrite Hidle.
        change (0 <? length (@nil string))%nat with false. cbv iota.
        erewrite bind_runs; [|reflexivity|]; last first.
        { cbv beta zeta.
          erewrite bind_runs; [|apply dispatch_run|]; last first.
          { erewrite bind_runs; [|apply Hget|]; last first.
            { cbv beta. fold sfas ids. rewrite Hbatch.
              erewrite bind_runs;
                [|erewrite bind_runs; [|apply Hsend|]; last first;
                  [cbv beta;
                   erewrite bind_runs; [|apply batch_loop_run|reflexivity];
                   reflexivity|];
                  reflexivity
                 |cbv beta; cbn [fst snd];
                  erewrite bind_runs; [|apply (run_eta loop)|apply Htail];
                  reflexivity].
              reflexivity. }
            reflexivity. }
          reflexivity. }
        reflexivity. }
      rewrite Hr, Ht. subst s0. cbn [fst snd app].
      rewrite app_nil_r, !flag_steps, existsb_app, foldl_app.
      reflexivity.
    + cbn [after_actions account]. rewrite Ha, Hr, Ht.
      repeat rewrite ?dispatched_cons, ?dispatched_app, ?dispatched_Dispatch.
      cbn [dispatched omap].
      subst s0 w4 w3 w1. cbn [after_actions account fst snd server].
      change (dispatched []) with (@nil Action).
      cbn [foldl]. rewrite !foldl_app. reflexivity.
    + cbn [after_actions queries_accounts]. by rewrite Hq.
  - (* no batch call *)
    destruct (sequential_loop_run backend [] ids (false, emptyArrays) w2)
      as (Hr & Ht & Hs & Hq & Ha).
    cbn [length app] in Hr, Ht, Hs, Hq, Ha.
    set (loop := for_idx (length ids) 0 (syncOne backend ids)
                   (false, emptyArrays) w2) in *.
    exists (after_actions (final loop)
              [setNewTransactions (result loop).2; setAccountsSyncing []]).
    split_and!.
    + erewrite bind_runs; [|reflexivity|]; last first.
      { cbv beta. rewrite Hidle.
        change (0 <? length (@nil string))%nat with false. cbv iota.
        erewrite bind_runs; [|reflexivity|]; last first.
        { cbv beta zeta.
          erewrite bind_runs; [|apply dispatch_run|]; last first.
          { erewrite bind_runs; [|apply Hget|]; last first.
            { cbv beta. fold sfas ids. rewrite Hbatch.
              erewrite bind_runs;
                [|reflexivity
                 |cbv beta; cbn [fst snd];
                  erewrite bind_runs; [|apply (run_eta loop)|apply Htail];
                  reflexivity].
              reflexivity. }
            reflexivity. }
          reflexivity. }
        reflexivity. }
      rewrite Hr, Ht. cbn [fst snd app].
      rewrite !flag_steps. reflexivity.
    + cbn [after_actions account]. rewrite Ha, Hr, Ht.
      repeat rewrite ?dispatched_cons, ?dispatched_app, ?dispatched_Dispatch.
      cbn [dispatched omap].
      subst w2 w1. cbn [after_actions account fst snd server app].
      change (dispatched []) with (@nil Action).
      cbn [foldl]. rewrite !foldl_app. reflexivity.
    + cbn [after_actions queries_accounts]. by rewrite Hq.
Qed.
End Run.

Lemma handle_actions_classifier accountId res :
  Forall classifier_action (handle_actions accountId res).
Proof.
  unfold handle_actions. rewrite !Forall_app. split_and!.
  - unfold health_action. destruct (errors res) as [|[]]; simpl;
      repeat constructor.
  - induction (errors res) as [|[] errs IH]; simpl; by constructor.
  - by repeat constructor.
Qed.

Lemma batch_actions_classifier answer :
  Forall classifier_action (batch_actions answer).
Proof.
  unfold batch_actions. induction answer as [|[accountId res] answer IH];
    simpl; [constructor|].
  rewrite Forall_app. split; [apply handle_actions_classifier|done].
Qed.

Lemma omap_classifier_actions {B} (f : Event → option B) actions :
  (∀ a, classifier_action a → f (Dispatch a) = None) →
  Forall classifier_action actions →
  omap f (Dispatch <$> actions) = [].
Proof.
  intros Hf. induction 1 as [|a actions Ha _ IH]; simpl; [done|].
  by rewrite (Hf a Ha).
Qed.

Lemma responses_app t1 t2 : responses (t1 ++ t2) = responses t1 ++ responses t2.
Proof. apply bind_app. Qed.

Lemma responses_Dispatch actions : responses (Dispatch <$> actions) = [].
Proof. induction actions as [|a l IH]; simpl; [done|]. exact IH. Qed.

Lemma requests_Dispatch actions : requests (Dispatch <$> actions) = [].
Proof. induction actions as [|a l IH]; simpl; [done|]. exact IH. Qed.

Lemma drop_after_middle {A} (pre : list A) x rest :
  drop (S (length pre)) (pre ++ x :: rest) = rest.
Proof. induction pre as [|y pre IH]; simpl; [done|]. exact IH. Qed.

Ltac classifier_events :=
  first [ apply omap_classifier_actions;
          [ by intros []
          | first [ apply handle_actions_classifier
                  | apply batch_actions_classifier ] ] ].

Section SequentialEvents.
Context {Server : Type} (backend : Backend Server).

Lemma bank_sync_answers_length ids srv :
  length (bank_sync_answers backend ids srv).1 = length ids.
Proof.
  revert srv. induction ids as [|id ids IH]; intros srv; simpl; [done|].
  destruct (accounts_bank_sync backend [id] srv) as [res srv1].
  specialize (IH srv1).
  destruct (bank_sync_answers backend ids srv1). simpl in *. by rewrite IH.
Qed.

Lemma sequential_events_responses all idx ids answers :
  length answers = length ids →
  responses (sequential_events all idx ids answers) = answers.
Proof.
  revert idx answers. induction ids as [|id ids IH];
    intros idx [|res answers] [=]; simpl; [done|].
  unfold responses in *. rewrite bind_app. simpl.
  fold (responses (Dispatch <$> handle_actions id res)).
  rewrite responses_Dispatch. simpl. f_equal. by apply IH.
Qed.

Lemma sequential_events_requests all idx ids answers :
  length answers = length ids →
  requests (sequential_events all idx ids answers)
  = (λ id, accounts_bank_sync_request [id]) <$> ids.
Proof.
  revert idx answers. induction ids as [|id ids IH];
    intros idx [|res answers] [=]; simpl; [done|].
  unfold requests in *. rewrite omap_app. simpl.
  fold (requests (Dispatch <$> handle_actions id res)).
  rewrite requests_Dispatch. simpl. f_equal. by apply IH.
Qed.

Lemma sequential_events_published all idx ids answers :
  published (sequential_events all idx ids answers) = [].
Proof.
  revert idx answers. induction ids as [|id ids IH];
    intros idx [|res answers]; simpl; try done.
  unfold published in *. rewrite omap_app. simpl.
  rewrite IH, app_nil_r. classifier_events.
Qed.

Lemma sequential_events_milestones pre ids answers :
  length answers = length ids →
  milestones (sequential_events (pre ++ ids) (length pre) ids answers)
  = step_marks ids.
Proof.
  revert pre answers. induction ids as [|id ids IH];
    intros pre [|res answers] [=]; simpl; [done|].
  unfold milestones in *. rewrite omap_app. simpl.
  rewrite (omap_classifier_actions _ (handle_actions id res));
    [|by intros []|apply handle_actions_classifier].
  simpl. f_equal.
  rewrite Nat.add_1_r.
  rewrite drop_after_middle. f_equal.
  specialize (IH (pre ++ [id]) answers).
  rewrite <- (assoc_L (++)), length_app, Nat.add_1_r in IH. by apply IH.
Qed.
End SequentialEvents.

(** ** Observations on a whole run *)

Lemma foldl_push arrays rs :
  foldl push arrays rs
  = {| resNewTransactions :=
         resNewTransactions arrays ++ (rs ≫= newTransactions);
       resMatchedTransactions :=
         resMatchedTransactions arrays ++ (rs ≫= matchedTransactions);
       resUpdatedAccounts :=
         resUpdatedAccounts arrays ++ (rs ≫= updatedAccounts) |}.
Proof.
  revert arrays. induction rs as [|r rs IH]; intros arrays; simpl.
  - rewrite !app_nil_r. by destruct arrays.
  - rewrite IH. unfold push; simpl. by rewrite <- !(assoc_L (++)).
Qed.

Lemma withoutSimpleFin_spec sfas ids :
  withoutSimpleFin sfas ids
  = filter (λ id, id ∉ AccountEntity.id <$> sfas) ids.
Proof.
  unfold withoutSimpleFin. apply list_filter_iff. intros id.
  rewrite negb_True, bool_decide_spec. apply not_iff_compat.
  rewrite list_elem_of_fmap. split.
  - intros [sfa Hfind]. apply find_some in Hfind as [Hin Heq].
    apply bool_decide_eq_true in Heq.
    exists sfa. split; [done|]. by apply list_elem_of_In.
  - intros (sfa & -> & Hin).
    destruct (List.find _ sfas) as [sfa'|] eqn:Hfind; [by eexists|].
    apply list_elem_of_In in Hin.
    eapply find_none in Hfind; [|exact Hin].
    by apply bool_decide_eq_false in Hfind.
Qed.

Section RunObservations.
Context {Server : Type} (backend : Backend Server).
Implicit Types w : World Server.

Lemma run_trace id w :
  accountsSyncing (account w) = [] →
  trace (syncAccounts backend id w) = run_events backend id w.
Proof.
  intros Hidle.
  destruct (syncAccounts_run backend id w Hidle) as (wf & -> & _). done.
Qed.

Lemma run_result id w :
  accountsSyncing (account w) = [] →
  result (syncAccounts backend id w)
  = existsb contributes (processedResponses backend id w).
Proof.
  intros Hidle.
  destruct (syncAccounts_run backend id w Hidle) as (wf & -> & _). done.
Qed.

Lemma sequentialAnswers_length id w :
  length (sequentialAnswers backend id w)
  = length (sequentialIds backend id w).
Proof. apply bank_sync_answers_length. Qed.

Lemma run_events_responses id w :
  responses (run_events backend id w) = processedResponses backend id w.
Proof.
  unfold run_events, processedResponses, batch_events.
  change (responses (?e1 :: ?e2 :: ?t)) with (responses t).
  rewrite !responses_app, sequential_events_responses
    by apply sequentialAnswers_length.
  simpl. rewrite app_nil_r. f_equal.
  destruct (usesBatch backend id w); [|done].
  change (responses (SendSimplefinBatchSync ?ids ?answer :: ?t))
    with ((snd <$> answer) ++ responses t).
  by rewrite responses_Dispatch, app_nil_r.
Qed.

Lemma run_events_published id w :
  published (run_events backend id w)
  = [foldl push emptyArrays (processedResponses backend id w)].
Proof.
  unfold run_events, batch_events.
  change (published (?e1 :: SendAccountsGet ?a :: ?t)) with (published t).
  unfold published. rewrite !omap_app.
  fold (published (sequential_events (sequentialIds backend id w) 0
    (sequentialIds backend id w) (sequentialAnswers backend id w))).
  rewrite sequential_events_published. simpl.
  destruct (usesBatch backend id w); [|done].
  simpl. by rewrite omap_classifier_actions
    by (by intros [] || apply batch_actions_classifier).
Qed.

Lemma run_events_requests id w :
  requests (run_events backend id w)
  = accounts_get_request
    :: (if usesBatch backend id w
        then [simplefin_batch_sync_request (batchIds backend w)] else [])
    ++ ((λ id, accounts_bank_sync_request [id])
          <$> sequentialIds backend id w).
Proof.
  unfold run_events, batch_events.
  change (requests (?e1 :: SendAccountsGet ?a :: ?t))
    with (accounts_get_request :: requests t).
  f_equal. unfold requests. rewrite !omap_app.
  fold (requests (sequential_events (sequentialIds backend id w) 0
    (sequentialIds backend id w) (sequentialAnswers backend id w))).
  rewrite sequential_events_requests by apply sequentialAnswers_length.
  simpl. rewrite app_nil_r. f_equal.
  destruct (usesBatch backend id w); [|done].
  simpl. fold (requests (Dispatch <$> batch_actions (batchAnswer backend w))).
  by rewrite requests_Dispatch.
Qed.

Lemma run_events_milestones id w :
  milestones (run_events backend id w)
  = progress_published (accountIdsToSync id (queries_accounts w))
    :: step_marks (sequentialIds backend id w)
    ++ [progress_published []].
Proof.
  unfold run_events, batch_events.
  change (milestones (Dispatch (setAccountsSyncing ?ids)
                      :: SendAccountsGet ?a :: ?t))
    with (progress_published ids :: milestones t).
  f_equal. unfold milestones. rewrite !omap_app.
  fold (milestones (sequential_events (sequentialIds backend id w) 0
    (sequentialIds backend id w) (sequentialAnswers backend id w))).
  pose proof (sequential_events_milestones []
    (sequentialIds backend id w) (sequentialAnswers backend id w)
    (sequentialAnswers_length id w)) as Hmarks.
  simpl in Hmarks. rewrite Hmarks. simpl.
  destruct (usesBatch backend id w); [|done].
  simpl. by rewrite omap_classifier_actions
    by (by intros [] || apply batch_actions_classifier).
Qed.
End RunObservations.

(** * The sync run coordinator *)

Section CoordinatorProperties.
Context {Server : Type} (backend : Backend Server).
Implicit Types w : World Server.

(** C1. Single flight: when `accountsSyncing` is non-empty at entry,
    [syncAccounts] returns false, sends nothing to the backend (it
    produces no event at all) and leaves the whole store, hence
    `failedAccounts` and `accountsSyncing`, as it was. *)
Theorem syncAccounts_single_flight id w :
  accountsSyncing (account w) ≠ [] →
  let r := syncAccounts backend id w in
  result r = false
  ∧ requests (trace r) = []
  ∧ dispatched (trace r) = []
  ∧ final r = w.
Proof.
  intros Hlocked r. subst r.
  by rewrite syncAccounts_locked.
Qed.

(** C9. A run with a target id (a non-empty string, the test being
    `!id`) works on the one-element list of that id and never issues the
    batch call, whatever the sync source of the target: the backend
    receives the account-list fetch and one `accounts-bank-sync` for the
    target, nothing else. *)
Theorem targeted_sync_never_batched target w :
  target ≠ empty_string →
  accountsSyncing (account w) = [] →
  let r := syncAccounts backend (Some target) w in
  accountIdsToSync (Some target) (queries_accounts w) = [target]
  ∧ head (trace r) = Some (Dispatch (setAccountsSyncing [target]))
  ∧ requests (trace r)
    = [accounts_get_request; accounts_bank_sync_request [target]]
  ∧ ∀ ids, simplefin_batch_sync_request ids ∉ requests (trace r).
Proof.
  intros Htarget Hidle r. subst r.
  assert (Htruthy : truthy (Some target) = true).
  { unfold truthy. by rewrite bool_decide_eq_false_2. }
  assert (Hids : accountIdsToSync (Some target) (queries_accounts w)
                 = [target]).
  { unfold accountIdsToSync. by rewrite Htruthy. }
  assert (Hbatch : usesBatch backend (Some target) w = false).
  { unfold usesBatch. by rewrite Htruthy. }
  assert (Hreq : requests (trace (syncAccounts backend (Some target) w))
    = [accounts_get_request; accounts_bank_sync_request [target]]).
  { rewrite run_trace, run_events_requests by done.
    unfold sequentialIds. by rewrite Hbatch, Hids. }
  split_and!; try done.
  - rewrite run_trace by done. unfold run_events. by rewrite Hids.
  - intros ids. rewrite Hreq, !elem_of_cons, elem_of_nil.
    by intros [?|[?|[]]].
Qed.

(** What the batch phase of a "sync all" run does: when the fetched
    account list holds accounts with sync source `simpleFin`, the ids of
    all of them go into the one batch call, and the one-by-one loop runs
    over the worklist without these ids. *)
Lemma sync_all_batch_split w :
  accountsSyncing (account w) = [] →
  simpleFinAccounts (fetchedAccounts backend w) ≠ [] →
  let r := syncAccounts backend None w in
  let sent := AccountEntity.id <$> simpleFinAccounts (fetchedAccounts backend w) in
  requests (trace r)
  = accounts_get_request
    :: simplefin_batch_sync_request sent
    :: ((λ id, accounts_bank_sync_request [id])
          <$> filter (λ id, id ∉ sent)
                (accountIdsToSync None (queries_accounts w))).
Proof.
  intros Hidle Hsfas r sent. subst r.
  rewrite run_trace, run_events_requests by done.
  unfold sequentialIds, usesBatch. simpl.
  destruct (simpleFinAccounts (fetchedAccounts backend w)) eqn:Hs; [done|].
  simpl. unfold batchIds. rewrite Hs, withoutSimpleFin_spec. done.
Qed.
End CoordinatorProperties.

Lemma step_marks_shrink ids :
  shrinks_by_processed (progress_published ids :: step_marks ids).
Proof.
  induction ids as [|id0 rest IH]; intros i previous id next H0 H1 H2.
  - destruct i; simpl in *; [|by rewrite lookup_nil in H0]. done.
  - destruct i as [|[|i]]; simpl in *.
    + by injection H0 as <-; injection H1 as <-; injection H2 as <-.
    + done.
    + apply (IH i); done.
Qed.

Section PlannerProperties.
Local Open Scope string_scope.
Local Open Scope list_scope.

(** C5. In "sync all" mode the worklist holds exactly the accounts that
    are linked to a provider, not closed and not tombstoned, ordered by
    `offbudget` first (on-budget before off-budget) and by ascending
    `sort_order` within each group, ties in snapshot order; for
    A(on-budget, 2), B(off-budget, 1), C(on-budget, 1), in whatever
    order the store holds them, the worklist is [C, A, B]. *)
Theorem sync_all_worklist (accounts : list AccountEntity.t) :
  (∃ ordered,
     accountIdsToSync None accounts = AccountEntity.id <$> ordered
     ∧ ordered ≡ₚ filter syncable accounts
     ∧ StronglySorted account_le ordered
     ∧ ∀ o s,
         filter (λ a, AccountEntity.offbudget a = o
                      ∧ AccountEntity.sort_order a = s) ordered
         = filter (λ a, AccountEntity.offbudget a = o
                        ∧ AccountEntity.sort_order a = s)
             (filter syncable accounts))
  ∧ (∀ a, syncable a = true
          ↔ (∃ bank, AccountEntity.bank a = Some bank ∧ bank ≠ empty_string)
            ∧ AccountEntity.closed a = 0 ∧ AccountEntity.tombstone a = 0)
  ∧ Forall (λ input, accountIdsToSync None input = ["C"; "A"; "B"])
      (permutations [accountA; accountB; accountC]).
Proof.
  split_and!.
  - exists (sort compareAccounts (filter syncable accounts)).
    split_and!.
    + done.
    + apply sort_Permutation.
    + apply sort_accounts_sorted.
    + intros o s. apply sort_stable.
      intros a b [Hao Has] [Hbo Hbs]. apply compareAccounts_le.
      unfold account_le. lia.
  - apply syncable_spec.
  - vm_compute. repeat constructor.
Qed.

(** C3. With no target id, the ids sent to the batch call are to be
    exactly the ids of the worklist whose sync source is SimpleFin.  The
    code departs from this at a store and a backend that both hold
    the open account A and the closed SimpleFin account S.  The worklist is
    [A]: the planner's filter leaves S out, so no account of the worklist
    is batch-eligible and no batch call is due.  The code issues the batch
    call for S all the same, because it draws the batch ids from the
    fetched account list by sync source alone. *)
Theorem batch_call_includes_closed_account :
  let r := runOn [accountA; closedSimpleFin] quiet None in
  syncable closedSimpleFin = false
  ∧ accountIdsToSync None [accountA; closedSimpleFin] = ["A"]
  ∧ filter isSimpleFin (filter syncable [accountA; closedSimpleFin]) = []
  ∧ requests (trace r)
    = [accounts_get_request;
       simplefin_batch_sync_request ["S"];
       accounts_bank_sync_request ["A"]]
  ∧ "S" ∉ accountIdsToSync None [accountA; closedSimpleFin].
Proof.
  split_and!; try (vm_compute; done).
  replace (accountIdsToSync None [accountA; closedSimpleFin])
    with ["A"] by (vm_compute; done).
  rewrite elem_of_cons, elem_of_nil. by intros [?|[]].
Qed.

(** The same happens with a store that lags behind the backend: the
    store holds A only, the fetched list holds A and the SimpleFin account
    T; the worklist is [A] and the batch call is issued for T. *)
Lemma batch_ids_outside_worklist :
  let backend := tableBackend [accountA; openSimpleFin] quiet in
  let w := idleWorld [accountA] in
  let r := syncAccounts backend None w in
  accountIdsToSync None (queries_accounts w) = ["A"]
  ∧ requests (trace r)
    = [accounts_get_request;
       simplefin_batch_sync_request ["T"];
       accounts_bank_sync_request ["A"]]
  ∧ "T" ∉ accountIdsToSync None (queries_accounts w).
Proof.
  split_and!; try (vm_compute; done).
  replace (accountIdsToSync None (queries_accounts (idleWorld [accountA])))
    with ["A"] by (vm_compute; done).
  rewrite elem_of_cons, elem_of_nil. by intros [?|[]].
Qed.

(** C6 as stated fails: with worklist [C, A, T], T being handled by the
    batch call, the publication that follows the sync of C is [A]; it is
    not a suffix of the worklist and it lacks two ids of the previous
    publication, C and T. *)
Lemma progress_drops_batch_ids :
  let r := runOn [accountC; accountA; openSimpleFin] quiet None in
  milestones (trace r)
  = [progress_published ["C"; "A"; "T"];
     bank_sync_called ["C"]; progress_published ["A"];
     bank_sync_called ["A"]; progress_published [];
     progress_published []]
  ∧ ¬ shrinks_by_processed (milestones (trace r))
  ∧ ¬ (["A"] `suffix_of` accountIdsToSync None
                           [accountC; accountA; openSimpleFin]).
Proof.
  assert (Hmarks :
    milestones (trace (runOn [accountC; accountA; openSimpleFin] quiet None))
    = [progress_published ["C"; "A"; "T"];
       bank_sync_called ["C"]; progress_published ["A"];
       bank_sync_called ["A"]; progress_published [];
       progress_published []]) by (vm_compute; done).
  split_and!.
  - exact Hmarks.
  - rewrite Hmarks. intros Hshrink.
    specialize (Hshrink 0%nat ["C"; "A"; "T"] "C" ["A"]
                  eq_refl eq_refl eq_refl).
    discriminate Hshrink.
  - replace (accountIdsToSync None [accountC; accountA; openSimpleFin])
      with ["C"; "A"; "T"] by (vm_compute; done).
    intros [pre Hpre].
    destruct pre as [|? [|? [|? pre]]]; simplify_eq/=.
    by destruct pre.
Qed.

(** C2 as stated fails: with three accounts answering `t1`; nothing;
    `t2`, `t1`, the run returns true and publishes [t1; t2; t1]: the
    duplicate is kept. *)
Lemma published_keeps_duplicates :
  let r := runOn [first; second; third] answers None in
  newTransactions <$> responses (trace r) = [["t1"]; []; ["t2"; "t1"]]
  ∧ result r = true
  ∧ resNewTransactions <$> published (trace r) = [["t1"; "t2"; "t1"]]
  ∧ ¬ NoDup ["t1"; "t2"; "t1"]
  ∧ ¬ (["t1"; "t2"; "t1"] ≡ₚ ["t1"; "t2"]).
Proof.
  split_and!; try (vm_compute; done).
  - rewrite !NoDup_cons, !elem_of_cons. intros [Hnotin _].
    apply Hnotin. by right; left.
  - intros Hperm. by apply Permutation_length in Hperm.
Qed.
End PlannerProperties.

Section ProgressAndAggregate.
Context {Server : Type} (backend : Backend Server).
Implicit Types w : World Server.

Lemma run_final_unlocked id w :
  accountsSyncing (account w) = [] →
  accountsSyncing (account (final (syncAccounts backend id w))) = [].
Proof.
  intros Hidle.
  destruct (syncAccounts_run backend id w Hidle) as (wf & -> & Hwf & _).
  unfold final; simpl. rewrite Hwf. unfold run_events.
  rewrite !app_comm_cons, !(assoc_L (++)).
  change [?d1; ?d2] with ([d1] ++ [d2]).
  rewrite (assoc_L (++)), dispatched_app, foldl_app. done.
Qed.

(** C6, amended. In a run that finds the lock free, progress is
    published at the start with the full worklist, then after each
    one-by-one sync with exactly the ids that the loop has still to
    sync, then reset to the empty list, after which the store holds the
    empty list.  The loop runs over the worklist itself when no batch
    call is issued and over the worklist without the batched ids
    otherwise.  From one publication of the loop to the next, and from
    the start of the loop's list to its first publication, exactly the
    id just synced is dropped. *)
Theorem progress_publications id w :
  accountsSyncing (account w) = [] →
  let r := syncAccounts backend id w in
  let ids := accountIdsToSync id (queries_accounts w) in
  let remaining :=
    if usesBatch backend id w
    then filter (λ x, x ∉ batchIds backend w) ids
    else ids in
  milestones (trace r)
  = progress_published ids :: step_marks remaining
    ++ [progress_published []]
  ∧ shrinks_by_processed (progress_published remaining :: step_marks remaining)
  ∧ accountsSyncing (account (final r)) = [].
Proof.
  intros Hidle r ids remaining.
  assert (Hremaining : sequentialIds backend id w = remaining).
  { unfold sequentialIds, remaining, batchIds.
    destruct (usesBatch backend id w); [|done].
    apply withoutSimpleFin_spec. }
  split_and!.
  - subst r. by rewrite run_trace, run_events_milestones, Hremaining.
  - apply step_marks_shrink.
  - by apply run_final_unlocked.
Qed.

(** C2, amended. A run that finds the lock free publishes exactly one
    transaction-update event, as its last event but for the final
    progress reset.  Its three lists are the concatenations, in
    processing order, of the corresponding lists of all the responses
    received, so an id is published if and only if some response carries
    it, and an id carried by several responses is published as many
    times; the run returns true if and only if some response carries a
    new or a matched transaction. *)
Theorem published_aggregate id w :
  accountsSyncing (account w) = [] →
  let r := syncAccounts backend id w in
  let rs := responses (trace r) in
  let payload :=
    {| resNewTransactions := rs ≫= newTransactions;
       resMatchedTransactions := rs ≫= matchedTransactions;
       resUpdatedAccounts := rs ≫= updatedAccounts |} in
  published (trace r) = [payload]
  ∧ (∃ t, trace r
          = t ++ [Dispatch (setNewTransactions payload);
                  Dispatch (setAccountsSyncing [])])
  ∧ result r = existsb contributes rs
  ∧ (∀ x, x ∈ resNewTransactions payload
          ↔ ∃ res, res ∈ rs ∧ x ∈ newTransactions res)
  ∧ length (resNewTransactions payload)
    = sum_list (length ∘ newTransactions <$> rs).
Proof.
  intros Hidle r rs payload.
  assert (Hrs : rs = processedResponses backend id w).
  { subst rs r. by rewrite run_trace, run_events_responses. }
  assert (Hpayload :
    foldl push emptyArrays (processedResponses backend id w) = payload).
  { rewrite foldl_push, <- Hrs. done. }
  split_and!.
  - subst r. by rewrite run_trace, run_events_published, Hpayload.
  - subst r. rewrite run_trace by done. unfold run_events.
    rewrite Hpayload.
    eexists (_ :: _ :: _ ++ _). simpl. rewrite <- (assoc_L (++)). reflexivity.
  - subst r. by rewrite run_result, Hrs.
  - intros x. simpl. rewrite list_elem_of_bind.
    split; intros (res & ? & ?); by exists res.
  - simpl. clear. induction rs as [|res rs IH]; [done|].
    rewrite bind_cons, fmap_cons, length_app, IH. done.
Qed.
End ProgressAndAggregate.


(** * The theorems at concrete inputs *)

Section Instances.
Local Open Scope string_scope.
Local Open Scope list_scope.

Lemma handleSyncResponse_frame_witness :
  "B" ≠ "A"
  ∧ let w' := final (handleSyncResponse "A" brokenLink emptyArrays busyWorld) in
    failedAccounts (account w') !! "B"
    = failedAccounts (account busyWorld) !! "B"
    ∧ accountsSyncing (account w') = accountsSyncing (account busyWorld).
Proof.
  split; [discriminate|].
  apply (handleSyncResponse_frame "A" brokenLink emptyArrays busyWorld "B").
  discriminate.
Defined.

Lemma failure_last_writer_wins_witness :
  errors brokenLink
  = SyncError "X" "Y" "link broken" :: [OtherError "timeout" (Some "ETIMEDOUT")]
  ∧ errors (okResponse ["t1"]) = []
  ∧ let entry_after r1 r2 :=
      failedAccounts (account (final (handleSyncResponse "B" r2 emptyArrays
        (final (handleSyncResponse "B" r1 emptyArrays busyWorld))))) !! "B" in
    entry_after brokenLink (okResponse ["t1"]) = None
    ∧ entry_after (okResponse ["t1"]) brokenLink = Some ("X", "Y")
    ∧ ∀ r1 r2,
        entry_after r1 r2
        = verdict (verdict (failedAccounts (account busyWorld) !! "B") r1) r2.
Proof.
  split; [reflexivity|]. split; [reflexivity|].
  apply (failure_last_writer_wins "B" busyWorld emptyArrays emptyArrays
           brokenLink (okResponse ["t1"]) "X" "Y" "link broken"
           [OtherError "timeout" (Some "ETIMEDOUT")]);
    reflexivity.
Defined.

Lemma syncAccounts_single_flight_witness :
  accountsSyncing (account busyWorld) ≠ []
  ∧ let r := syncAccounts (tableBackend [accountA] quiet) None busyWorld in
    result r = false
    ∧ requests (trace r) = []
    ∧ dispatched (trace r) = []
    ∧ final r = busyWorld.
Proof.
  split; [discriminate|].
  apply (syncAccounts_single_flight (tableBackend [accountA] quiet) None
           busyWorld).
  discriminate.
Defined.

Lemma targeted_sync_never_batched_witness :
  "T" ≠ empty_string
  ∧ accountsSyncing (account (idleWorld [accountA; openSimpleFin])) = []
  ∧ let r := syncAccounts (tableBackend [accountA; openSimpleFin] quiet)
               (Some "T") (idleWorld [accountA; openSimpleFin]) in
    accountIdsToSync (Some "T")
      (queries_accounts (idleWorld [accountA; openSimpleFin])) = ["T"]
    ∧ head (trace r) = Some (Dispatch (setAccountsSyncing ["T"]))
    ∧ requests (trace r)
      = [accounts_get_request; accounts_bank_sync_request ["T"]]
    ∧ ∀ ids, simplefin_batch_sync_request ids ∉ requests (trace r).
Proof.
  split; [discriminate|]. split; [reflexivity|].
  apply (targeted_sync_never_batched
           (tableBackend [accountA; openSimpleFin] quiet) "T"
           (idleWorld [accountA; openSimpleFin]));
    [discriminate|reflexivity].
Defined.

Lemma progress_publications_witness :
  accountsSyncing (account (idleWorld [accountC; accountA; openSimpleFin])) = []
  ∧ let backend := tableBackend [accountC; accountA; openSimpleFin] quiet in
    let w := idleWorld [accountC; accountA; openSimpleFin] in
    let r := syncAccounts backend None w in
    let ids := accountIdsToSync None (queries_accounts w) in
    let remaining :=
      if usesBatch backend None w
      then filter (λ x, x ∉ batchIds backend w) ids
      else ids in
    milestones (trace r)
    = progress_published ids :: step_marks remaining
      ++ [progress_published []]
    ∧ shrinks_by_processed
        (progress_published remaining :: step_marks remaining)
    ∧ accountsSyncing (account (final r)) = [].
Proof.
  split; [reflexivity|].
  apply (progress_publications
           (tableBackend [accountC; accountA; openSimpleFin] quiet) None
           (idleWorld [accountC; accountA; openSimpleFin])).
  reflexivity.
Defined.

Lemma published_aggregate_witness :
  accountsSyncing (account (idleWorld [first; second; third])) = []
  ∧ let r := syncAccounts (tableBackend [first; second; third] answers) None
               (idleWorld [first; second; third]) in
    let rs := responses (trace r) in
    let payload :=
      {| resNewTransactions := rs ≫= newTransactions;
         resMatchedTransactions := rs ≫= matchedTransactions;
         resUpdatedAccounts := rs ≫= updatedAccounts |} in
    published (trace r) = [payload]
    ∧ (∃ t, trace r
            = t ++ [Dispatch (setNewTransactions payload);
                    Dispatch (setAccountsSyncing [])])
    ∧ result r = existsb contributes rs
    ∧ (∀ x, x ∈ resNewTransactions payload
            ↔ ∃ res, res ∈ rs ∧ x ∈ newTransactions res)
    ∧ length (resNewTransactions payload)
      = sum_list (length ∘ newTransactions <$> rs).
Proof.
  split; [reflexivity|].
  apply (published_aggregate (tableBackend [first; second; third] answers)
           None (idleWorld [first; second; third])).
  reflexivity.
Defined.
End Instances.

(** * Further properties of the slice and of its thunks *)

(** ** The reducers *)

Section ReducerProperties.
Local Open Scope string_scope.
Local Open Scope list_scope.

(** X1. Marking an account that has no failure entry as failed and then
    as healthy gives back the state it started from. *)
Theorem mark_failed_then_success_restores state id errorType errorCode :
  failedAccounts state !! id = None →
  reducer (reducer state (markAccountFailed id errorType errorCode))
    (markAccountSuccess id)
  = state.
Proof.
  intros Hfresh. destruct state as [failed syncing]; simpl in *.
  by rewrite delete_insert_id.
Qed.

Lemma mark_failed_then_success_restores_witness :
  failedAccounts (account busyWorld) !! "A" = None
  ∧ reducer (reducer (account busyWorld) (markAccountFailed "A" "X" "Y"))
      (markAccountSuccess "A")
    = account busyWorld.
Proof.
  split; [by apply lookup_singleton_ne|].
  apply (mark_failed_then_success_restores (account busyWorld) "A" "X" "Y").
  by apply lookup_singleton_ne.
Defined.

(** X2. Every action is idempotent on the slice: dispatching it twice in a
    row leaves the state that dispatching it once leaves. *)
Theorem reducer_idempotent state (a : Action) :
  reducer (reducer state a) a = reducer state a.
Proof.
  destruct a; simpl; try done.
  - by rewrite insert_insert_eq.
  - by rewrite delete_delete_eq.
Qed.

(** X3. Health updates of two different accounts commute, and a health
    update commutes with a progress update: the state reached does not
    depend on the order of the two dispatches. *)
Theorem reducer_marks_commute state id1 id2 a1 a2 ids :
  id1 ≠ id2 → marks id1 a1 → marks id2 a2 →
  reducer (reducer state a1) a2 = reducer (reducer state a2) a1
  ∧ reducer (reducer state a1) (setAccountsSyncing ids)
    = reducer (reducer state (setAccountsSyncing ids)) a1.
Proof.
  intros Hne [(t1 & c1 & ->)| ->] [(t2 & c2 & ->)| ->]; simpl;
    (split; [f_equal|done]).
  - by apply insert_insert_ne.
  - by rewrite delete_insert_ne.
  - by rewrite delete_insert_ne.
  - apply delete_delete.
Qed.

Lemma reducer_marks_commute_witness :
  "A" ≠ "B" ∧ marks "A" (markAccountFailed "A" "X" "Y")
  ∧ marks "B" (markAccountSuccess "B")
  ∧ reducer (reducer (account busyWorld) (markAccountFailed "A" "X" "Y"))
      (markAccountSuccess "B")
    = reducer (reducer (account busyWorld) (markAccountSuccess "B"))
        (markAccountFailed "A" "X" "Y")
    ∧ reducer (reducer (account busyWorld) (markAccountFailed "A" "X" "Y"))
        (setAccountsSyncing ["C"])
      = reducer (reducer (account busyWorld) (setAccountsSyncing ["C"]))
          (markAccountFailed "A" "X" "Y").
Proof.
  split; [discriminate|].
  split; [left; exists "X", "Y"; reflexivity|].
  split; [right; reflexivity|].
  apply (reducer_marks_commute (account busyWorld) "A" "B"
           (markAccountFailed "A" "X" "Y") (markAccountSuccess "B") ["C"]).
  - discriminate.
  - left. exists "X", "Y". reflexivity.
  - right. reflexivity.
Defined.
End ReducerProperties.

(** ** handleSyncResponse *)

Section ClassifierResult.
Context {Server : Type}.
Implicit Types w : World Server.

(** X4. [handleSyncResponse] returns true exactly when the response
    carries a new or a matched transaction, whatever its errors and
    whatever its updated accounts, and it appends the three lists of the
    response to the three result arrays. *)
Theorem handleSyncResponse_result accountId res arrays w :
  let r := handleSyncResponse accountId res arrays w in
  ((result r).1 = true
   ↔ newTransactions res ≠ [] ∨ matchedTransactions res ≠ [])
  ∧ resNewTransactions (result r).2
    = resNewTransactions arrays ++ newTransactions res
  ∧ resMatchedTransactions (result r).2
    = resMatchedTransactions arrays ++ matchedTransactions res
  ∧ resUpdatedAccounts (result r).2
    = resUpdatedAccounts arrays ++ updatedAccounts res.
Proof.
  intros r. subst r. rewrite handleSyncResponse_run.
  unfold result; simpl. split_and!; try done.
  unfold contributes. rewrite orb_true_iff.
  destruct (newTransactions res), (matchedTransactions res); simpl;
    split; intros H; try done; try (by left); try (by right);
    by destruct H.
Qed.

(** X5. Whatever the response, [handleSyncResponse] dispatches, in this
    order: the health action that the first issue calls for, if any; one
    notification per issue; and `getAccounts`, exactly once and as the
    last action it dispatches. *)
Theorem handleSyncResponse_dispatch_order accountId res arrays w :
  let r := handleSyncResponse accountId res arrays w in
  dispatched (trace r)
  = match head (errors res) with
    | None => [markAccountSuccess accountId]
    | Some (SyncError category code _) =>
        [markAccountFailed accountId category code]
    | Some (OtherError _ _) => []
    end
    ++ (notification_of <$> errors res) ++ [getAccounts]
  ∧ refreshes (trace r) = 1%nat
  ∧ last (dispatched (trace r)) = Some getAccounts.
Proof.
  intros r. subst r. rewrite handleSyncResponse_run.
  unfold trace; simpl. rewrite dispatched_Dispatch. split_and!.
  - unfold handle_actions, health_action.
    by destruct (errors res) as [|[] errs].
  - unfold refreshes, handle_actions.
    rewrite !fmap_app, !omap_app, !length_app. simpl.
    replace (omap _ (Dispatch <$> option_list (health_action accountId res)))
      with (@nil unit).
    2:{ unfold health_action. by destruct (errors res) as [|[]]. }
    replace (omap (λ e, match e with
                        | Dispatch getAccounts => Some ()
                        | _ => None
                        end) (Dispatch <$> (notification_of <$> errors res)))
      with (@nil unit); [done|].
    induction (errors res) as [|[] errs IH]; simpl; [done|..]; exact IH.
  - unfold handle_actions. rewrite !(assoc_L (++)). apply last_snoc.
Qed.
End ClassifierResult.

(** ** What a run does with the responses it receives *)

Lemma filter_Forall_id {A} (P : A → Prop) `{!∀ x, Decision (P x)} l :
  Forall P l → filter P l = l.
Proof.
  induction 1 as [|x l Hx _ IH]; [done|].
  by rewrite filter_cons_True, IH.
Qed.

Lemma classified_app t1 t2 :
  classified (t1 ++ t2) = classified t1 ++ classified t2.
Proof. apply bind_app. Qed.

Lemma responses_classified t : responses t = (classified t).*2.
Proof.
  induction t as [|e t IH]; [done|].
  change (e :: t) with ([e] ++ t).
  rewrite responses_app, classified_app, fmap_app, IH. f_equal.
  destruct e; simpl; by rewrite ?app_nil_r.
Qed.

Lemma classified_Dispatch actions : classified (Dispatch <$> actions) = [].
Proof. induction actions as [|a l IH]; simpl; [done|]. exact IH. Qed.

Lemma batch_actions_app l1 l2 :
  batch_actions (l1 ++ l2) = batch_actions l1 ++ batch_actions l2.
Proof. apply bind_app. Qed.

Lemma sequential_events_classified all idx ids answers :
  classified (sequential_events all idx ids answers) = zip ids answers.
Proof.
  revert idx answers. induction ids as [|id ids IH];
    intros idx [|res answers]; simpl; try done.
  unfold classified in *. rewrite bind_app. simpl.
  fold (classified (Dispatch <$> handle_actions id res)).
  rewrite classified_Dispatch. simpl. f_equal. apply IH.
Qed.

Lemma sequential_events_classifier_actions all idx ids answers :
  filter classifier_action
    (dispatched (sequential_events all idx ids answers))
  = batch_actions (zip ids answers).
Proof.
  revert idx answers. induction ids as [|id ids IH];
    intros idx [|res answers]; try reflexivity.
  cbn [sequential_events].
  rewrite dispatched_cons, dispatched_app, dispatched_Dispatch,
    dispatched_cons.
  rewrite filter_app, filter_cons_False by (by intros []).
  rewrite IH, filter_Forall_id by apply handle_actions_classifier.
  reflexivity.
Qed.

Lemma notifications_dispatched t :
  notifications t
  = omap (λ a, match a with
               | addNotification type message internal =>
                   Some (type, message, internal)
               | _ => None
               end) (dispatched t).
Proof.
  induction t as [|[a| | |] t IH]; simpl; try done.
  destruct a; simpl; try done. by f_equal.
Qed.

Lemma refreshes_dispatched t :
  refreshes t
  = length (omap (λ a, match a with getAccounts => Some () | _ => None end)
              (dispatched t)).
Proof.
  unfold refreshes. f_equal.
  induction t as [|[a| | |] t IH]; simpl; try done.
  destruct a; simpl; try done. by f_equal.
Qed.

Lemma omap_classifier_filter {B} (g : Action → option B)
    (actions : list Action) :
  (∀ a, ¬ classifier_action a → g a = None) →
  omap g actions = omap g (filter classifier_action actions).
Proof.
  intros Hg. induction actions as [|a l IH]; [done|].
  rewrite filter_cons. change (a :: l) with ([a] ++ l).
  rewrite omap_app, IH.
  destruct (decide (classifier_action a)) as [Ha|Ha].
  - change (a :: filter classifier_action l)
      with ([a] ++ filter classifier_action l).
    by rewrite omap_app.
  - simpl. by rewrite (Hg a Ha).
Qed.

Lemma entry_step_lookup x state (actions : list Action) :
  failedAccounts (foldl reducer state actions) !! x
  = foldl (entry_step x) (failedAccounts state !! x) actions.
Proof.
  revert state. induction actions as [|a l IH]; intros state; [done|].
  simpl. rewrite IH. f_equal.
  destruct a; simpl; try done.
  - rewrite lookup_insert. by destruct (decide (id = x)).
  - rewrite lookup_delete. by destruct (decide (id = x)).
Qed.

Lemma entry_step_classifier_filter x entry (actions : list Action) :
  foldl (entry_step x) entry actions
  = foldl (entry_step x) entry (filter classifier_action actions).
Proof.
  revert entry. induction actions as [|a l IH]; intros entry; [done|].
  rewrite filter_cons. cbn [foldl]. rewrite IH.
  destruct (decide (classifier_action a)) as [Ha|Ha]; [done|].
  by destruct a.
Qed.

Lemma entry_step_notifications x entry errs :
  foldl (entry_step x) entry (notification_of <$> errs) = entry.
Proof. induction errs as [|[] errs IH]; simpl; auto. Qed.

Lemma entry_step_handle_actions x entry accountId res :
  foldl (entry_step x) entry (handle_actions accountId res)
  = verdict_for x entry (accountId, res).
Proof.
  unfold handle_actions. rewrite !foldl_app, entry_step_notifications.
  unfold verdict_for, verdict, health_action; simpl.
  destruct (errors res) as [|[] errs]; simpl;
    by destruct (decide (accountId = x)).
Qed.

Lemma entry_step_batch_actions x entry ps :
  foldl (entry_step x) entry (batch_actions ps)
  = foldl (verdict_for x) entry ps.
Proof.
  revert entry. induction ps as [|[accountId res] ps IH]; intros entry;
    [done|].
  change (batch_actions ((accountId, res) :: ps))
    with (handle_actions accountId res ++ batch_actions ps).
  by rewrite foldl_app, entry_step_handle_actions, IH.
Qed.

Lemma verdict_for_filter x entry ps :
  foldl (verdict_for x) entry ps
  = foldl verdict entry (filter (λ p, p.1 = x) ps).*2.
Proof.
  revert entry. induction ps as [|p ps IH]; intros entry; [done|].
  rewrite filter_cons. simpl. unfold verdict_for at 2.
  destruct (decide (p.1 = x)); simpl; by rewrite IH.
Qed.

Lemma verdict_for_untouched x entry ps :
  x ∉ ps.*1 → foldl (verdict_for x) entry ps = entry.
Proof.
  revert entry. induction ps as [|p ps IH]; intros entry Hx; [done|].
  simpl in *. rewrite not_elem_of_cons in Hx. destruct Hx as [Hp Hps].
  unfold verdict_for at 2. rewrite decide_False by done. by apply IH.
Qed.

Lemma notifications_batch_actions ps :
  omap (λ a, match a with
             | addNotification type message internal =>
                 Some (type, message, internal)
             | _ => None
             end) (batch_actions ps)
  = notice <$> (ps.*2 ≫= errors).
Proof.
  induction ps as [|[accountId res] ps IH]; [done|].
  change (batch_actions ((accountId, res) :: ps))
    with (handle_actions accountId res ++ batch_actions ps).
  rewrite omap_app, IH, fmap_cons, bind_cons, fmap_app. f_equal.
  unfold handle_actions. rewrite !omap_app. simpl.
  replace (omap _ (option_list (health_action accountId res)))
    with (@nil (string * string * option string)).
  2:{ unfold health_action. by destruct (errors res) as [|[]]. }
  rewrite app_nil_r. simpl.
  induction (errors res) as [|[] errs IHe]; simpl; [done|..];
    f_equal; exact IHe.
Qed.

Lemma refreshes_batch_actions ps :
  length (omap (λ a, match a with getAccounts => Some () | _ => None end)
            (batch_actions ps))
  = length ps.
Proof.
  induction ps as [|[accountId res] ps IH]; [done|].
  change (batch_actions ((accountId, res) :: ps))
    with (handle_actions accountId res ++ batch_actions ps).
  rewrite omap_app, length_app, IH. simpl. f_equal.
  unfold handle_actions. rewrite !omap_app, !length_app. simpl.
  replace (omap _ (option_list (health_action accountId res)))
    with (@nil unit).
  2:{ unfold health_action. by destruct (errors res) as [|[]]. }
  replace (omap (λ a, match a with getAccounts => Some () | _ => None end)
             (notification_of <$> errors res)) with (@nil unit); [done|].
  induction (errors res) as [|[] errs IHe]; simpl; [done|..]; exact IHe.
Qed.

Section RunResponses.
Context {Server : Type} (backend : Backend Server).
Implicit Types w : World Server.

Lemma run_events_classifier_actions id w :
  filter classifier_action (dispatched (run_events backend id w))
  = batch_actions (classified (run_events backend id w)).
Proof.
  unfold run_events, batch_events.
  rewrite !dispatched_cons. cbv iota.
  change (classified (?e1 :: ?e2 :: ?t)) with (classified t).
  rewrite filter_cons.
  destruct (decide (classifier_action (setAccountsSyncing _))) as [[]|_].
  rewrite !dispatched_app, !classified_app, !filter_app, !batch_actions_app.
  rewrite sequential_events_classifier_actions,
    sequential_events_classified.
  assert (Htail : ∀ p,
    filter classifier_action
      (dispatched [Dispatch (setNewTransactions p);
                   Dispatch (setAccountsSyncing [])]) = []
    ∧ batch_actions
        (classified [Dispatch (setNewTransactions p);
                     Dispatch (setAccountsSyncing [])]) = [])
    by (intros p; split; reflexivity).
  destruct (Htail (foldl push emptyArrays (processedResponses backend id w)))
    as [-> ->].
  f_equal.
  destruct (usesBatch backend id w); [|done].
  rewrite dispatched_cons, dispatched_Dispatch.
  change (classified (SendSimplefinBatchSync ?ids ?answer :: ?t))
    with (answer ++ classified t).
  rewrite classified_Dispatch, app_nil_r.
  apply filter_Forall_id, batch_actions_classifier.
Qed.

Lemma run_account id w :
  accountsSyncing (account w) = [] →
  account (final (syncAccounts backend id w))
  = foldl reducer (account w) (dispatched (trace (syncAccounts backend id w))).
Proof.
  intros Hidle.
  destruct (syncAccounts_run backend id w Hidle) as (wf & -> & Hwf & _).
  done.
Qed.

Lemma run_entry x id w :
  accountsSyncing (account w) = [] →
  failedAccounts (account (final (syncAccounts backend id w))) !! x
  = foldl (verdict_for x) (failedAccounts (account w) !! x)
      (classified (trace (syncAccounts backend id w))).
Proof.
  intros Hidle. rewrite run_account, entry_step_lookup by done.
  rewrite run_trace by done.
  by rewrite entry_step_classifier_filter, run_events_classifier_actions,
    entry_step_batch_actions.
Qed.

(** X6. A run that finds the lock free raises exactly one notification
    per issue of every response it receives, in the order of the
    responses and of their issues, and no other notification. *)
Theorem run_notifications id w :
  accountsSyncing (account w) = [] →
  let r := syncAccounts backend id w in
  notifications (trace r) = notice <$> (responses (trace r) ≫= errors).
Proof.
  intros Hidle r. subst r. rewrite run_trace by done.
  rewrite notifications_dispatched, responses_classified.
  rewrite omap_classifier_filter by (by intros []; simpl; tauto).
  by rewrite run_events_classifier_actions, notifications_batch_actions.
Qed.

(** X7. A run that finds the lock free asks for a refresh of the account
    list once per response it receives: as many refreshes as responses,
    none for a run that receives no response. *)
Theorem run_refreshes id w :
  accountsSyncing (account w) = [] →
  let r := syncAccounts backend id w in
  refreshes (trace r) = length (responses (trace r)).
Proof.
  intros Hidle r. subst r. rewrite run_trace by done.
  rewrite refreshes_dispatched, responses_classified, length_fmap.
  rewrite omap_classifier_filter by (by intros []; simpl; tauto).
  by rewrite run_events_classifier_actions, refreshes_batch_actions.
Qed.

(** X8. After a run that finds the lock free, the failure entry of an
    account is the entry it had before, updated by the responses handled
    for that account in the order of their arrival: the last response
    without errors or with a `SyncError` first decides. *)
Theorem run_health x id w :
  accountsSyncing (account w) = [] →
  let r := syncAccounts backend id w in
  failedAccounts (account (final r)) !! x
  = foldl verdict (failedAccounts (account w) !! x)
      (filter (λ p, p.1 = x) (classified (trace r))).*2.
Proof.
  intros Hidle r. subst r. by rewrite run_entry, verdict_for_filter.
Qed.

(** X9. A run that finds the lock free leaves the failure entry of every
    account for which it handles no response as it was. *)
Theorem run_health_frame x id w :
  accountsSyncing (account w) = [] →
  let r := syncAccounts backend id w in
  x ∉ (classified (trace r)).*1 →
  failedAccounts (account (final r)) !! x = failedAccounts (account w) !! x.
Proof.
  intros Hidle r Hx. subst r. rewrite run_entry by done.
  by apply verdict_for_untouched.
Qed.
End RunResponses.

(** ** The worklist, the requests and the lock over whole runs *)

Lemma published_progress_milestones t :
  published_progress t
  = omap (λ m, match m with
               | progress_published ids => Some ids
               | bank_sync_called _ => None
               end) (milestones t).
Proof.
  induction t as [|[a| | |] t IH]; simpl; try done.
  destruct a; simpl; try done. by f_equal.
Qed.

Lemma step_marks_published ids :
  Forall (λ p, p `suffix_of` ids)
    (omap (λ m, match m with
                | progress_published ids => Some ids
                | bank_sync_called _ => None
                end) (step_marks ids)).
Proof.
  induction ids as [|id rest IH]; simpl; constructor.
  - by apply suffix_cons_r.
  - eapply Forall_impl; [exact IH|]. intros p Hp. by apply suffix_cons_r.
Qed.

Lemma accountIdsToSync_NoDup id (accounts : list AccountEntity.t) :
  NoDup (AccountEntity.id <$> accounts) →
  NoDup (accountIdsToSync id accounts).
Proof.
  intros Hnodup.
  assert (Hall : NoDup (AccountEntity.id
                          <$> sort compareAccounts (filter syncable accounts))).
  { rewrite sort_Permutation.
    eapply sublist_NoDup; [exact Hnodup|].
    apply fmap_sublist, sublist_filter. }
  unfold accountIdsToSync. destruct id as [target|]; [|done].
  destruct (negb (negb (truthy (Some target)))); [|done].
  apply NoDup_singleton.
Qed.

Lemma requested_ids_app t1 t2 :
  requested_ids (t1 ++ t2) = requested_ids t1 ++ requested_ids t2.
Proof. apply bind_app. Qed.

Lemma requested_ids_Dispatch actions :
  requested_ids (Dispatch <$> actions) = [].
Proof. induction actions as [|a l IH]; simpl; [done|]. exact IH. Qed.

Lemma sequential_events_requested_ids all idx ids answers :
  length answers = length ids →
  requested_ids (sequential_events all idx ids answers) = ids.
Proof.
  revert idx answers. induction ids as [|id ids IH];
    intros idx [|res answers] [=]; [done|].
  cbn [sequential_events].
  change (?e :: ?t1 ++ ?d :: ?t2) with ([e] ++ t1 ++ [d] ++ t2).
  rewrite !requested_ids_app, requested_ids_Dispatch, IH by done.
  reflexivity.
Qed.

Section RunInvariants.
Context {Server : Type} (backend : Backend Server).
Implicit Types w : World Server.

Lemma run_events_requested_ids id w :
  requested_ids (run_events backend id w)
  = (if usesBatch backend id w then batchIds backend w else [])
    ++ sequentialIds backend id w.
Proof.
  unfold run_events, batch_events.
  change (requested_ids (?e1 :: ?e2 :: ?t)) with (requested_ids t).
  rewrite !requested_ids_app, sequential_events_requested_ids
    by apply sequentialAnswers_length.
  change (requested_ids [_; _]) with (@nil string). rewrite app_nil_r.
  f_equal. destruct (usesBatch backend id w); [|done].
  change (requested_ids (SendSimplefinBatchSync ?ids ?answer :: ?t))
    with (ids ++ requested_ids t).
  by rewrite requested_ids_Dispatch, app_nil_r.
Qed.

(** X11. When the account ids of the store are pairwise different, and
    so are those of the fetched account list, no id is requested twice in
    a run: the ids of the batch call and of the one-by-one calls are
    pairwise different. *)
Theorem run_requests_each_id_once id w :
  accountsSyncing (account w) = [] →
  NoDup (AccountEntity.id <$> queries_accounts w) →
  NoDup (AccountEntity.id <$> fetchedAccounts backend w) →
  NoDup (requested_ids (trace (syncAccounts backend id w))).
Proof.
  intros Hidle Hstore Hfetched.
  rewrite run_trace, run_events_requested_ids by done.
  pose proof (accountIdsToSync_NoDup id _ Hstore) as Hids.
  unfold sequentialIds. destruct (usesBatch backend id w); [|done].
  rewrite withoutSimpleFin_spec. apply NoDup_app. split_and!.
  - eapply sublist_NoDup; [exact Hfetched|].
    apply fmap_sublist, sublist_filter.
  - intros x Hx. rewrite list_elem_of_filter. by intros [Hnot _].
  - by apply NoDup_filter.
Qed.

(** X12. A "sync all" run that finds no account to sync in the store and
    no SimpleFin account in the fetched list only fetches the account
    list: it publishes an empty progress list and an empty transaction
    update, returns false and leaves the slice as it was. *)
Theorem run_nothing_to_sync w :
  accountsSyncing (account w) = [] →
  filter syncable (queries_accounts w) = [] →
  simpleFinAccounts (fetchedAccounts backend w) = [] →
  let r := syncAccounts backend None w in
  trace r
  = [Dispatch (setAccountsSyncing []);
     SendAccountsGet (fetchedAccounts backend w);
     Dispatch (setNewTransactions emptyArrays);
     Dispatch (setAccountsSyncing [])]
  ∧ result r = false
  ∧ account (final r) = account w.
Proof.
  intros Hidle Hstore Hfetched r. subst r.
  destruct (syncAccounts_run backend None w Hidle) as (wf & -> & Hwf & _).
  unfold result, final, trace; simpl.
  assert (Hevents : run_events backend None w
    = [Dispatch (setAccountsSyncing []);
       SendAccountsGet (fetchedAccounts backend w);
       Dispatch (setNewTransactions emptyArrays);
       Dispatch (setAccountsSyncing [])]).
  { unfold run_events, batch_events, processedResponses, sequentialAnswers,
      sequentialIds, usesBatch, accountIdsToSync.
    by rewrite Hstore, Hfetched. }
  assert (Hnone : processedResponses backend None w = []).
  { unfold processedResponses, sequentialAnswers, sequentialIds, usesBatch,
      accountIdsToSync.
    by rewrite Hstore, Hfetched. }
  split_and!.
  - done.
  - by rewrite Hnone.
  - rewrite Hwf, Hevents. simpl.
    destruct (account w) as [failed syncing]; simpl in *. by subst syncing.
Qed.
End RunInvariants.

(** ** unlinkAccount, linkAccount, linkAccountSimpleFin, moveAccount *)

Section OtherThunkProperties.
Context {Server GoCardlessAccount SimpleFinAccount : Type}.
Context (handle : @LinkRequest GoCardlessAccount SimpleFinAccount
                  → Server → Server).
Implicit Types w : World Server.

(** X14. [unlinkAccount] sends one `account-unlink` request and then
    clears the failure entry of the account, whether or not a sync is in
    progress: the entry of every other account and the progress list are
    left as they were. *)
Theorem unlinkAccount_clears_failure id other w :
  other ≠ id →
  let r := unlinkAccount handle id w in
  failedAccounts (account r.1.2) !! id = None
  ∧ failedAccounts (account r.1.2) !! other
    = failedAccounts (account w) !! other
  ∧ accountsSyncing (account r.1.2) = accountsSyncing (account w)
  ∧ link_requests r.2 = [account_unlink id]
  ∧ head r.2 = Some (Sent (account_unlink id)).
Proof.
  intros Hother r. subst r. unfold unlinkAccount, link_then; simpl.
  split_and!; try done.
  - apply lookup_delete_eq.
  - by apply lookup_delete_ne.
Qed.

(** X15. [linkAccount] and [linkAccountSimpleFin] send their one request
    first and then dispatch the refresh of the payees and the refresh of
    the accounts, in this order; [moveAccount] sends its one request first
    and then dispatches the refresh of the accounts and the refresh of the
    payees, in this order.  None of them changes the slice, so an account
    marked as failed stays marked when it is linked again or moved. *)
Theorem link_and_move_keep_slice requisitionId gcAccount sfAccount
    upgradingId offBudget id targetId w :
  let r1 := linkAccount handle requisitionId gcAccount upgradingId offBudget w in
  let r2 := linkAccountSimpleFin handle sfAccount upgradingId offBudget w in
  let r3 := moveAccount handle id targetId w in
  (account r1.1.2 = account w ∧ account r2.1.2 = account w
   ∧ account r3.1.2 = account w)
  ∧ r1.2
    = [Sent (gocardless_accounts_link requisitionId gcAccount upgradingId
               offBudget);
       DispatchedGetPayees; Dispatched getAccounts]
  ∧ r2.2
    = [Sent (simplefin_accounts_link sfAccount upgradingId offBudget);
       DispatchedGetPayees; Dispatched getAccounts]
  ∧ r3.2
    = [Sent (account_move id targetId);
       Dispatched getAccounts; DispatchedGetPayees].
Proof.
  intros r1 r2 r3. subst r1 r2 r3.
  unfold linkAccount, linkAccountSimpleFin, moveAccount, link_then; simpl.
  by split_and!.
Qed.
End OtherThunkProperties.

(** ** calculateHasWarning *)

Section ReportWarningProperties.
Context {Value : Type} (toString : Value → string).

Lemma warningLoop_spec (conds : list (@Condition Value)) ids :
  warningLoop toString conds ids = true
  ↔ ∃ c, c ∈ conds ∧ dangling toString ids c.
Proof.
  induction conds as [|c rest IH]; simpl.
  - split; [done|]. intros (c & Hc & _). by apply elem_of_nil in Hc.
  - assert (Hrest : warningLoop toString rest ids = true
                    → ∃ c', c' ∈ c :: rest ∧ dangling toString ids c').
    { intros (c' & Hc' & Hd)%IH. exists c'. split; [by right|done]. }
    assert (Hback : ∀ c', c' ∈ c :: rest → dangling toString ids c' →
                    ¬ dangling toString ids c →
                    warningLoop toString rest ids = true).
    { intros c' Hc' Hd Hnot. apply elem_of_cons in Hc' as [->|Hc']; [done|].
      apply IH. by exists c'. }
    unfold dangling in *.
    repeat case_bool_decide; simpl; split;
      try (intros _; exists c; split; [by left|]; by eauto);
      try done; try exact Hrest;
      intros (c' & Hc' & Hd); eapply Hback; eauto; intros Hc;
      destruct Hc as [[? ?]|[[? ?]|[? ?]]]; congruence.
Qed.

(** X16. The warning is raised exactly when some condition of the report
    on an account, a payee or a category has a value that, as a string,
    is not among the corresponding ids: a report without conditions and
    conditions on other fields never raise it. *)
Theorem calculateHasWarning_spec (report : @CustomReportEntity Value) ids :
  calculateHasWarning toString report ids = true
  ↔ ∃ conds c, conditions report = Some conds ∧ c ∈ conds
               ∧ dangling toString ids c.
Proof.
  unfold calculateHasWarning. destruct (conditions report) as [conds|].
  - rewrite warningLoop_spec. split.
    + intros (c & Hc & Hd). by exists conds, c.
    + intros (conds' & c & [= <-] & Hc & Hd). by exists c.
  - split; [done|]. by intros (conds & c & [=] & _).
Qed.

(** X17. The warning of a card can only go away when categories, payees
    or accounts are added, and can only appear when some are removed: a
    report that raises no warning for some lists of ids raises none for
    longer lists. *)
Theorem hasWarning_monotone (report : @CustomReportEntity Value)
    (categories payees accounts categories' payees' accounts' : list string) :
  categories ⊆ categories' → payees ⊆ payees' → accounts ⊆ accounts' →
  hasWarning toString report categories payees accounts = false →
  hasWarning toString report categories' payees' accounts' = false.
Proof.
  intros Hc Hp Ha Hquiet.
  apply not_true_is_false. intros Hwarn.
  apply not_true_iff_false in Hquiet. apply Hquiet.
  unfold hasWarning in *.
  apply calculateHasWarning_spec in Hwarn as (conds & c & Hconds & Hin & Hd).
  apply calculateHasWarning_spec. exists conds, c. split_and!; try done.
  unfold dangling in *; simpl in *.
  rewrite !elem_of_list_to_set in *.
  destruct Hd as [[? Hd]|[[? Hd]|[? Hd]]]; [left|right; left|right; right];
    (split; [done|]); intros Hx; apply Hd; auto.
Qed.

(** X18. The warning of a report whose conditions are two lists put
    together is the disjunction of the warnings of the two lists. *)
Theorem calculateHasWarning_app (conds1 conds2 : list (@Condition Value)) ids :
  calculateHasWarning toString {| conditions := Some (conds1 ++ conds2) |} ids
  = calculateHasWarning toString {| conditions := Some conds1 |} ids
    || calculateHasWarning toString {| conditions := Some conds2 |} ids.
Proof.
  unfold calculateHasWarning; simpl.
  induction conds1 as [|c rest IH]; simpl; [done|].
  repeat case_bool_decide; simpl; try done; exact IH.
Qed.
End ReportWarningProperties.

(** ** maybeApplyNegative *)

(** X19. [maybeApplyNegative] keeps the magnitude of the amount and gives
    it the sign asked for, whatever sign it had; applying it again with
    another sign is the same as applying it once with that sign. *)
Theorem maybeApplyNegative_sign (amount : Q) (negative again : bool) :
  Qabs (maybeApplyNegative amount negative) = Qabs amount
  ∧ (if negative
     then (maybeApplyNegative amount negative <= 0)%Q
     else (0 <= maybeApplyNegative amount negative)%Q)
  ∧ maybeApplyNegative (maybeApplyNegative amount negative) again
    = maybeApplyNegative amount again.
Proof.
  assert (Habs : Qabs (maybeApplyNegative amount negative) = Qabs amount).
  { unfold maybeApplyNegative. destruct amount as [n d], negative; simpl.
    - by rewrite Z.abs_opp, Z.abs_idemp.
    - by rewrite Z.abs_idemp. }
  split_and!.
  - exact Habs.
  - unfold maybeApplyNegative. destruct negative.
    + apply (Qopp_le_compat 0), Qabs_nonneg.
    + apply Qabs_nonneg.
  - unfold maybeApplyNegative at 1 3. by rewrite Habs.
Qed.

(** ** The worklist and the order of the store *)

(** X21. When no two different sync-eligible accounts of the store have
    the same `offbudget` and the same `sort_order`, the "sync all" worklist
    does not depend on the order in which the store holds the accounts. *)
Theorem worklist_independent_of_store_order
    (accounts1 accounts2 : list AccountEntity.t) :
  accounts1 ≡ₚ accounts2 →
  (∀ a b, a ∈ accounts1 → b ∈ accounts1 →
          syncable a = true → syncable b = true →
          AccountEntity.offbudget a = AccountEntity.offbudget b →
          AccountEntity.sort_order a = AccountEntity.sort_order b →
          a = b) →
  accountIdsToSync None accounts1 = accountIdsToSync None accounts2.
Proof.
  intros Hperm Hties. unfold accountIdsToSync. f_equal.
  apply (StronglySorted_unique_strong account_le).
  - intros a b Ha Hb Hab Hba.
    rewrite sort_Permutation in Ha. rewrite sort_Permutation, <- Hperm in Hb.
    apply list_elem_of_filter in Ha as [Hsa Ha], Hb as [Hsb Hb].
    apply Is_true_true in Hsa, Hsb.
    apply Hties; try done; unfold account_le in *; lia.
  - apply sort_accounts_sorted.
  - apply sort_accounts_sorted.
  - by rewrite !sort_Permutation, Hperm.
Qed.

Lemma worklist_independent_of_store_order_witness :
  [accountA; accountB; accountC] ≡ₚ [accountC; accountA; accountB]
  ∧ (∀ a b, a ∈ [accountA; accountB; accountC] →
            b ∈ [accountA; accountB; accountC] →
            syncable a = true → syncable b = true →
            AccountEntity.offbudget a = AccountEntity.offbudget b →
            AccountEntity.sort_order a = AccountEntity.sort_order b →
            a = b)
  ∧ accountIdsToSync None [accountA; accountB; accountC]
    = accountIdsToSync None [accountC; accountA; accountB].
Proof.
  assert (Hperm : [accountA; accountB; accountC]
                  ≡ₚ [accountC; accountA; accountB]).
  { eapply perm_trans; [apply perm_skip, (perm_swap accountC accountB [])|].
    apply (perm_swap accountC accountA [accountB]). }
  assert (Hties : ∀ a b, a ∈ [accountA; accountB; accountC] →
            b ∈ [accountA; accountB; accountC] →
            syncable a = true → syncable b = true →
            AccountEntity.offbudget a = AccountEntity.offbudget b →
            AccountEntity.sort_order a = AccountEntity.sort_order b →
            a = b).
  { intros a b Ha Hb _ _.
    rewrite !elem_of_cons, elem_of_nil in Ha, Hb.
    destruct Ha as [->|[->|[->|[]]]], Hb as [->|[->|[->|[]]]];
      simpl; intros Ho Hs; try reflexivity; discriminate. }
  split; [exact Hperm|]. split; [exact Hties|].
  exact (worklist_independent_of_store_order _ _ Hperm Hties).
Defined.

(** * The further properties at concrete inputs *)

Section FurtherInstances.
Local Open Scope string_scope.
Local Open Scope list_scope.

Lemma run_notifications_witness :
  accountsSyncing (account (idleWorld [first; second; third])) = []
  ∧ let r := syncAccounts (tableBackend [first; second; third] answers) None
               (idleWorld [first; second; third]) in
    notifications (trace r) = notice <$> (responses (trace r) ≫= errors).
Proof.
  split; [reflexivity|].
  apply (run_notifications (tableBackend [first; second; third] answers)
           None (idleWorld [first; second; third])).
  reflexivity.
Defined.

Lemma run_refreshes_witness :
  accountsSyncing (account (idleWorld [first; second; third])) = []
  ∧ let r := syncAccounts (tableBackend [first; second; third] answers) None
               (idleWorld [first; second; third]) in
    refreshes (trace r) = length (responses (trace r)).
Proof.
  split; [reflexivity|].
  apply (run_refreshes (tableBackend [first; second; third] answers)
           None (idleWorld [first; second; third])).
  reflexivity.
Defined.

Lemma run_health_witness :
  accountsSyncing (account (idleWorld [first; second; third])) = []
  ∧ let w := idleWorld [first; second; third] in
    let r := syncAccounts (tableBackend [first; second; third] answers) None w in
    failedAccounts (account (final r)) !! "second"
    = foldl verdict (failedAccounts (account w) !! "second")
        (filter (λ p, p.1 = "second") (classified (trace r))).*2.
Proof.
  split; [reflexivity|].
  apply (run_health (tableBackend [first; second; third] answers) "second"
           None (idleWorld [first; second; third])).
  reflexivity.
Defined.

Lemma run_health_frame_witness :
  accountsSyncing (account (idleWorld [first; second; third])) = []
  ∧ (let r := syncAccounts (tableBackend [first; second; third] answers) None
                (idleWorld [first; second; third]) in
     "fourth" ∉ (classified (trace r)).*1)
  ∧ let w := idleWorld [first; second; third] in
    let r := syncAccounts (tableBackend [first; second; third] answers) None w in
    failedAccounts (account (final r)) !! "fourth"
    = failedAccounts (account w) !! "fourth".
Proof.
  assert (Hfresh :
    "fourth" ∉ (classified (trace (syncAccounts
       (tableBackend [first; second; third] answers) None
       (idleWorld [first; second; third])))).*1).
  { apply (bool_decide_unpack _). vm_compute. exact I. }
  split; [reflexivity|]. split; [exact Hfresh|].
  apply (run_health_frame (tableBackend [first; second; third] answers)
           "fourth" None (idleWorld [first; second; third]));
    [reflexivity|exact Hfresh].
Defined.

Lemma run_requests_each_id_once_witness :
  let accounts := [accountC; accountA; openSimpleFin] in
  accountsSyncing (account (idleWorld accounts)) = []
  ∧ NoDup (AccountEntity.id <$> queries_accounts (idleWorld accounts))
  ∧ NoDup (AccountEntity.id
             <$> fetchedAccounts (tableBackend accounts quiet)
                   (idleWorld accounts))
  ∧ NoDup (requested_ids (trace (syncAccounts (tableBackend accounts quiet)
                                   None (idleWorld accounts)))).
Proof.
  assert (Hids : NoDup (AccountEntity.id
                          <$> [accountC; accountA; openSimpleFin])).
  { apply (bool_decide_unpack _). vm_compute. exact I. }
  split; [reflexivity|]. split; [exact Hids|]. split; [exact Hids|].
  apply (run_requests_each_id_once
           (tableBackend [accountC; accountA; openSimpleFin] quiet) None
           (idleWorld [accountC; accountA; openSimpleFin]));
    [reflexivity|exact Hids|exact Hids].
Defined.

Lemma run_nothing_to_sync_witness :
  let w := idleWorld [closedSimpleFin] in
  let backend := tableBackend [accountA] quiet in
  accountsSyncing (account w) = []
  ∧ filter syncable (queries_accounts w) = []
  ∧ simpleFinAccounts (fetchedAccounts backend w) = []
  ∧ let r := syncAccounts backend None w in
    trace r
    = [Dispatch (setAccountsSyncing []);
       SendAccountsGet (fetchedAccounts backend w);
       Dispatch (setNewTransactions emptyArrays);
       Dispatch (setAccountsSyncing [])]
    ∧ result r = false
    ∧ account (final r) = account w.
Proof.
  split; [reflexivity|]. split; [reflexivity|]. split; [reflexivity|].
  apply (run_nothing_to_sync (tableBackend [accountA] quiet)
           (idleWorld [closedSimpleFin])); reflexivity.
Defined.

Lemma unlinkAccount_clears_failure_witness :
  "A" ≠ "B"
  ∧ let r := unlinkAccount (GoCardlessAccount := unit)
               (SimpleFinAccount := unit) (λ _ s, s) "B" busyWorld in
    failedAccounts (account r.1.2) !! "B" = None
    ∧ failedAccounts (account r.1.2) !! "A"
      = failedAccounts (account busyWorld) !! "A"
    ∧ accountsSyncing (account r.1.2) = accountsSyncing (account busyWorld)
    ∧ link_requests r.2 = [account_unlink "B"]
    ∧ head r.2 = Some (Sent (account_unlink "B")).
Proof.
  split; [discriminate|].
  apply (unlinkAccount_clears_failure (GoCardlessAccount := unit)
           (SimpleFinAccount := unit) (λ _ s, s) "B" "A" busyWorld).
  discriminate.
Defined.

Lemma hasWarning_monotone_witness :
  [] ⊆ ["groceries"] ∧ [] ⊆ ["landlord"] ∧ ["A"] ⊆ ["A"; "B"]
  ∧ hasWarning (λ v : string, v) reportOnAccountA [] [] ["A"] = false
  ∧ hasWarning (λ v : string, v) reportOnAccountA
      ["groceries"] ["landlord"] ["A"; "B"] = false.
Proof.
  assert (H1 : ([] : list string) ⊆ ["groceries"]) by apply list_subseteq_nil.
  assert (H2 : ([] : list string) ⊆ ["landlord"]) by apply list_subseteq_nil.
  assert (H3 : ["A"] ⊆ ["A"; "B"]).
  { intros x Hx. apply elem_of_cons. left.
    apply elem_of_cons in Hx as [Hx|Hx]; [exact Hx|].
    by apply elem_of_nil in Hx. }
  assert (H4 : hasWarning (λ v : string, v) reportOnAccountA [] [] ["A"]
               = false) by (vm_compute; reflexivity).
  split; [exact H1|]. split; [exact H2|]. split; [exact H3|].
  split; [exact H4|].
  exact (hasWarning_monotone (λ v : string, v) reportOnAccountA
           [] [] ["A"] ["groceries"] ["landlord"] ["A"; "B"] H1 H2 H3 H4).
Defined.
End FurtherInstances.
(** ** Runs in which a backend call may be rejected *)

Lemma published_progress_app t1 t2 :
  published_progress (t1 ++ t2)
  = published_progress t1 ++ published_progress t2.
Proof. apply omap_app. Qed.

Lemma published_app t1 t2 : published (t1 ++ t2) = published t1 ++ published t2.
Proof. apply omap_app. Qed.

Lemma published_progress_classifier (actions : list Action) :
  Forall classifier_action actions →
  published_progress (Dispatch <$> actions) = [].
Proof. intros. apply omap_classifier_actions; [by intros []|done]. Qed.

Lemma published_classifier (actions : list Action) :
  Forall classifier_action actions → published (Dispatch <$> actions) = [].
Proof. intros. apply omap_classifier_actions; [by intros []|done]. Qed.

Lemma accountsSyncing_classifier state (actions : list Action) :
  Forall classifier_action actions →
  accountsSyncing (foldl reducer state actions) = accountsSyncing state.
Proof.
  intros Hall. revert state.
  induction Hall as [|a l Ha _ IH]; intros state; [done|].
  simpl. rewrite IH. by destruct a.
Qed.

Lemma flag_agrees_step s res :
  flag_agrees s → flag_agrees (flag_step s.1 res, push s.2 res).
Proof.
  unfold flag_agrees, flag_step, contributes; simpl. intros Hs.
  destruct (newTransactions res) as [|n ns],
    (matchedTransactions res) as [|m ms]; simpl; rewrite ?app_nil_r;
    try done.
  - split; [intros _|done]. right. by destruct (resMatchedTransactions s.2).
  - split; [intros _|done]. left. by destruct (resNewTransactions s.2).
  - split; [intros _|done]. left. by destruct (resNewTransactions s.2).
Qed.

Lemma flag_agrees_steps s rs :
  flag_agrees s → flag_agrees (foldl flag_step s.1 rs, foldl push s.2 rs).
Proof.
  revert s. induction rs as [|res rs IH]; intros s Hs; [by destruct s|].
  simpl. apply (IH (flag_step s.1 res, push s.2 res)).
  by apply flag_agrees_step.
Qed.

Section FallibleRuns.
Context {Server : Type} (fb : FallibleBackend Server).
Implicit Types w : World Server.

Lemma attempt_bind_Some {A B} (m : Attempt Server A)
    (k : A → Attempt Server B) w a w1 t1 b w2 t2 :
  m w = (Some a, w1, t1) → k a w1 = (b, w2, t2) →
  attempt_bind m k w = (b, w2, t1 ++ t2).
Proof. intros Hm Hk. unfold attempt_bind. by rewrite Hm, Hk. Qed.

Lemma attempt_bind_None {A B} (m : Attempt Server A)
    (k : A → Attempt Server B) w w1 t1 :
  m w = (None, w1, t1) → attempt_bind m k w = (None, w1, t1).
Proof. intros Hm. unfold attempt_bind. by rewrite Hm. Qed.

Lemma attempt_run {A} (m : Thunk Server A) w a w1 t :
  m w = (a, w1, t) → attempt m w = (Some a, w1, t).
Proof. intros Hm. unfold attempt. by rewrite Hm. Qed.

(** One step of the loop: either the call is rejected and nothing
    happens, or it is answered and the step is the one of [syncOne]. *)
Lemma trySyncOne_run all idx s w :
  let accountId := default empty_string (all !! idx) in
  let answer := try_accounts_bank_sync fb [accountId] (server w) in
  trySyncOne fb all idx s w
  = match answer.1 with
    | Some res =>
        let actions :=
          handle_actions accountId res
          ++ [setAccountsSyncing (drop (idx + 1) all)] in
        (Some (flag_step s.1 res, push s.2 res),
         {| account := foldl reducer (account w) actions;
            queries_accounts := queries_accounts w;
            server := answer.2 |},
         SendAccountsBankSync [accountId] res :: (Dispatch <$> actions))
    | None =>
        (None,
         {| account := account w;
            queries_accounts := queries_accounts w;
            server := answer.2 |},
         [])
    end.
Proof.
  intros accountId answer. subst answer. unfold trySyncOne. fold accountId.
  destruct (try_accounts_bank_sync fb [accountId] (server w))
    as [[res|] srv1] eqn:Hanswer; cbn [fst snd].
  - assert (Hsend : try_send_accounts_bank_sync fb [accountId] w
      = (Some res,
         {| account := account w; queries_accounts := queries_accounts w;
            server := srv1 |},
         [SendAccountsBankSync [accountId] res])).
    { unfold try_send_accounts_bank_sync, try_with_server.
      by rewrite Hanswer. }
    erewrite attempt_bind_Some; [|exact Hsend|]; last first.
    { erewrite attempt_bind_Some;
        [|apply attempt_run, handleAndFlag_run|]; last first.
      { erewrite attempt_bind_Some;
          [|apply attempt_run, dispatch_run|reflexivity].
        reflexivity. }
      reflexivity. }
    unfold after_actions; simpl.
    rewrite foldl_app, fmap_app. reflexivity.
  - assert (Hsend : try_send_accounts_bank_sync fb [accountId] w
      = (None,
         {| account := account w; queries_accounts := queries_accounts w;
            server := srv1 |},
         [])).
    { unfold try_send_accounts_bank_sync, try_with_server.
      by rewrite Hanswer. }
    by erewrite attempt_bind_None.
Qed.

(** What the one-by-one loop publishes and leaves behind, whether it
    runs to its end or stops at a rejected call. *)
Lemma try_loop_summary pre suf s w :
  let loop := try_for_idx (length suf) (length pre)
                (trySyncOne fb (pre ++ suf)) s w in
  Forall (λ p, p `suffix_of` suf) (published_progress (trace loop))
  ∧ published (trace loop) = []
  ∧ accountsSyncing (account (final loop))
    = default (accountsSyncing (account w))
        (last (published_progress (trace loop)))
  ∧ match result loop with
    | Some s' =>
        (flag_agrees s → flag_agrees s')
        ∧ (suf = [] ∨ last (published_progress (trace loop)) = Some [])
    | None =>
        suf ≠ [] ∧ Forall (λ p, p ≠ []) (published_progress (trace loop))
    end.
Proof.
  revert pre s w. induction suf as [|id suf IH]; intros pre s w loop.
  - subst loop. simpl. unfold attempt_ret, result, final, trace; simpl.
    split_and!; try done. by left.
  - subst loop. cbn [length try_for_idx].
    pose proof (trySyncOne_run (pre ++ id :: suf) (length pre) s w) as Hone.
    cbv zeta in Hone. rewrite list_lookup_middle in Hone by done.
    rewrite Nat.add_1_r, drop_after_middle in Hone.
    change (default empty_string (Some id)) with id in Hone.
    destruct (try_accounts_bank_sync fb [id] (server w)) as [[res|] srv1];
      cbn [fst snd] in Hone.
    + (* the call is answered *)
      set (w1 := {| account := _; queries_accounts := _; server := srv1 |})
        in Hone.
      specialize (IH (pre ++ [id]) (flag_step s.1 res, push s.2 res) w1).
      rewrite <- (assoc_L (++)), length_app, Nat.add_1_r in IH.
      cbn [app length] in IH. cbv zeta in IH.
      remember (try_for_idx (length suf) (S (length pre))
                  (trySyncOne fb (pre ++ id :: suf))
                  (flag_step s.1 res, push s.2 res) w1) as rest eqn:Hrest.
      destruct rest as [[r' w'] t'].
      unfold result, final, trace in IH; cbn [fst snd] in IH.
      destruct IH as (IHp & IHu & IHa & IHr).
      erewrite attempt_bind_Some; [|exact Hone|symmetry; exact Hrest].
      unfold result, final, trace; cbn [fst snd].
      assert (Hstep : ∀ t,
        published_progress
          ((SendAccountsBankSync [id] res
            :: (Dispatch <$> handle_actions id res
                             ++ [setAccountsSyncing suf])) ++ t)
        = suf :: published_progress t).
      { intros t. rewrite published_progress_app. f_equal.
        change (published_progress (SendAccountsBankSync ?i ?r :: ?l))
          with (published_progress l).
        rewrite fmap_app, published_progress_app,
          published_progress_classifier by apply handle_actions_classifier.
        done. }
      rewrite Hstep. split_and!.
      * constructor; [by apply suffix_cons_r|].
        eapply Forall_impl; [exact IHp|]. intros p Hp. by apply suffix_cons_r.
      * rewrite published_app, IHu, app_nil_r.
        change (published (SendAccountsBankSync ?i ?r :: ?l))
          with (published l).
        rewrite fmap_app, published_app, published_classifier
          by apply handle_actions_classifier.
        done.
      * rewrite IHa. subst w1. cbn [account].
        rewrite foldl_app. cbn [foldl reducer accountsSyncing].
        rewrite last_cons. by destruct (last (published_progress t')).
      * destruct r' as [s'|].
        -- destruct IHr as [Hflag Hlast]. split.
           ++ intros Hs. by apply Hflag, flag_agrees_step.
           ++ right. destruct Hlast as [Hnil|Hlast].
              ** subst suf. simpl in Hrest. injection Hrest as _ _ ->. done.
              ** by rewrite last_cons, Hlast.
        -- destruct IHr as [Hsuf Hne]. split; [done|].
           constructor; [done|exact Hne].
    + (* the call is rejected *)
      erewrite attempt_bind_None by exact Hone.
      unfold result, final, trace; cbn [fst snd account].
      split_and!; done.
Qed.
End FallibleRuns.


Section FallibleOutcome.
Context {Server : Type} (fb : FallibleBackend Server).
Implicit Types w : World Server.

(** The last phase: what it publishes, what it leaves in the store and
    what it returns. *)
Lemma tryFinish_summary seqIds s0 w0 :
  flag_agrees s0 →
  let r := tryFinish fb seqIds s0 w0 in
  Forall (λ p, p `sublist_of` seqIds) (published_progress (trace r))
  ∧ accountsSyncing (account (final r))
    = default (accountsSyncing (account w0))
        (last (published_progress (trace r)))
  ∧ match result r with
    | Some b =>
        last (published_progress (trace r)) = Some []
        ∧ ∃ payload,
            published (trace r) = [payload]
            ∧ (b = true
               ↔ resNewTransactions payload ≠ []
                 ∨ resMatchedTransactions payload ≠ [])
    | None =>
        published (trace r) = []
        ∧ seqIds ≠ []
        ∧ Forall (λ p, p ≠ []) (published_progress (trace r))
    end.
Proof.
  intros Hs0 r. subst r. unfold tryFinish.
  pose proof (try_loop_summary fb [] seqIds s0 w0) as Hloop.
  cbn [app length] in Hloop. cbv zeta in Hloop.
  destruct (try_for_idx (length seqIds) 0 (trySyncOne fb seqIds) s0 w0)
    as [[[s|] wl] tl] eqn:Hrun;
    unfold result, final, trace in Hloop; cbn [fst snd] in Hloop;
    destruct Hloop as (Hp & Hu & Ha & Hr).
  - erewrite attempt_bind_Some; [|exact Hrun|reflexivity].
    unfold result, final, trace; cbn [fst snd].
    rewrite published_progress_app, published_app, Hu.
    change (published_progress
              ([Dispatch (setNewTransactions s.2)]
               ++ [Dispatch (setAccountsSyncing [])] ++ []))
      with [@nil string].
    change (published
              ([Dispatch (setNewTransactions s.2)]
               ++ [Dispatch (setAccountsSyncing [])] ++ []))
      with [s.2].
    rewrite last_snoc. split_and!.
    + rewrite Forall_app. split.
      * eapply Forall_impl; [exact Hp|]. intros p [k ->].
        by apply sublist_inserts_l.
      * repeat constructor. apply sublist_nil_l.
    + done.
    + done.
    + exists s.2. split; [done|]. by apply Hr.
  - erewrite attempt_bind_None by exact Hrun.
    unfold result, final, trace; cbn [fst snd].
    destruct Hr as [Hne Hall]. split_and!; try done.
    eapply Forall_impl; [exact Hp|]. intros p [k ->].
    by apply sublist_inserts_l.
Qed.

(** A run that finds the lock free publishes its worklist and then either
    stops at a rejected call before the loop, or reaches the last
    phase. *)
Lemma trySyncAccounts_phases id w :
  accountsSyncing (account w) = [] →
  let ids := accountIdsToSync id (queries_accounts w) in
  (∃ w1 early,
     trySyncAccounts fb id w
     = (None, w1, Dispatch (setAccountsSyncing ids) :: early)
     ∧ accountsSyncing (account w1) = ids
     ∧ published_progress early = []
     ∧ published early = [])
  ∨ (∃ seqIds s0 w0 early,
       trySyncAccounts fb id w
       = (result (tryFinish fb seqIds s0 w0),
          final (tryFinish fb seqIds s0 w0),
          Dispatch (setAccountsSyncing ids)
          :: early ++ trace (tryFinish fb seqIds s0 w0))
       ∧ accountsSyncing (account w0) = ids
       ∧ seqIds `sublist_of` ids
       ∧ flag_agrees s0
       ∧ published_progress early = []
       ∧ published early = []).
Proof.
  intros Hidle ids.
  set (w1 := after_actions w [setAccountsSyncing ids]).
  assert (Hstart : ∀ (k : list AccountEntity.t → list AccountEntity.t
                          → Attempt Server bool) b w' t,
    attempt_bind (try_send_accounts_get fb) (k (queries_accounts w)) w1
    = (b, w', t) →
    attempt_bind (attempt getState_account)
      (λ accountsState,
         if (0 <? length (accountsSyncing accountsState))%nat
         then attempt_ret false
         else attempt_bind (attempt getState_queries)
                (λ queriesState,
                   attempt_bind
                     (attempt (dispatch
                        (setAccountsSyncing (accountIdsToSync id queriesState))))
                     (λ _, attempt_bind (try_send_accounts_get fb)
                             (k queriesState)))) w
    = (b, w', Dispatch (setAccountsSyncing ids) :: t)).
  { intros k b w' t Hk.
    erewrite attempt_bind_Some; [|reflexivity|]; last first.
    { cbv beta. rewrite Hidle.
      change (0 <? length (@nil string))%nat with false. cbv iota.
      erewrite attempt_bind_Some; [|reflexivity|]; last first.
      { cbv beta.
        erewrite attempt_bind_Some;
          [|apply attempt_run, dispatch_run|exact Hk].
        reflexivity. }
      reflexivity. }
    reflexivity. }
  destruct (try_accounts_get fb (server w)) as [[data|] srv1] eqn:Hanswer.
  - (* the account list is fetched *)
    set (w2 := {| account := account w1;
                  queries_accounts := queries_accounts w;
                  server := srv1 |}).
    assert (Hget : try_send_accounts_get fb w1
      = (Some data, w2, [SendAccountsGet data])).
    { unfold try_send_accounts_get, try_with_server. cbn [server w1 after_actions].
      by rewrite Hanswer. }
    set (sfas := simpleFinAccounts data).
    destruct (negb (truthy id) && (0 <? length sfas)%nat) eqn:Hbatch.
    + (* the batch call is made *)
      destruct (try_simplefin_batch_sync fb (AccountEntity.id <$> sfas) srv1)
        as [[answer|] srv2] eqn:Hbatched.
      * set (w3 := {| account := account w1;
                      queries_accounts := queries_accounts w;
                      server := srv2 |}).
        assert (Hsend : try_send_simplefin_batch_sync fb
                          (AccountEntity.id <$> sfas) w2
          = (Some answer, w3,
             [SendSimplefinBatchSync (AccountEntity.id <$> sfas) answer])).
        { unfold try_send_simplefin_batch_sync, try_with_server.
          cbn [server w2]. by rewrite Hbatched. }
        right.
        exists (withoutSimpleFin sfas ids),
          (foldl flag_step false (snd <$> answer),
           foldl push emptyArrays (snd <$> answer)),
          (after_actions w3 (batch_actions answer)),
          ([SendAccountsGet data;
            SendSimplefinBatchSync (AccountEntity.id <$> sfas) answer]
           ++ (Dispatch <$> batch_actions answer)).
        split_and!.
        -- unfold trySyncAccounts. cbv zeta. apply Hstart.
           erewrite attempt_bind_Some; [|exact Hget|]; last first.
           { cbv beta zeta. fold sfas ids. rewrite Hbatch.
             erewrite attempt_bind_Some; last first.
             { cbv beta. apply run_eta. }
             { erewrite attempt_bind_Some; [|exact Hsend|]; last first.
               { erewrite attempt_bind_Some;
                   [|apply attempt_run, batch_loop_run|reflexivity].
                 reflexivity. }
               reflexivity. }
             reflexivity. }
           cbn [fst snd app]. rewrite app_nil_r. reflexivity.
        -- cbn [after_actions account w3 w1].
           apply accountsSyncing_classifier, batch_actions_classifier.
        -- rewrite withoutSimpleFin_spec. apply sublist_filter.
        -- apply (flag_agrees_steps (false, emptyArrays)).
           unfold flag_agrees; simpl. split; [done|by intros [|]].
        -- rewrite published_progress_app.
           by rewrite published_progress_classifier
             by apply batch_actions_classifier.
        -- rewrite published_app.
           by rewrite published_classifier by apply batch_actions_classifier.
      * (* the batch call is rejected *)
        set (w3 := {| account := account w1;
                      queries_accounts := queries_accounts w;
                      server := srv2 |}).
        assert (Hsend : try_send_simplefin_batch_sync fb
                          (AccountEntity.id <$> sfas) w2
          = (None, w3, [])).
        { unfold try_send_simplefin_batch_sync, try_with_server.
          cbn [server w2]. by rewrite Hbatched. }
        left. exists w3, [SendAccountsGet data]. split_and!; try done.
        unfold trySyncAccounts. cbv zeta. apply Hstart.
        erewrite attempt_bind_Some; [|exact Hget|]; last first.
        { cbv beta zeta. fold sfas ids. rewrite Hbatch.
          erewrite attempt_bind_None; [reflexivity|].
          erewrite attempt_bind_None by exact Hsend. reflexivity. }
        reflexivity.
    + (* no batch call *)
      right.
      exists ids, (false, emptyArrays), w2, [SendAccountsGet data].
      split_and!; try done.
      * unfold trySyncAccounts. cbv zeta. apply Hstart.
        erewrite attempt_bind_Some; [|exact Hget|]; last first.
        { cbv beta zeta. fold sfas ids. rewrite Hbatch.
          erewrite attempt_bind_Some; [|reflexivity|]; last first.
          { cbv beta. apply run_eta. }
          reflexivity. }
        reflexivity.
      * unfold flag_agrees; simpl. split; [done|by intros [|]].
  - (* fetching the account list is rejected *)
    set (w2 := {| account := account w1;
                  queries_accounts := queries_accounts w;
                  server := srv1 |}).
    assert (Hget : try_send_accounts_get fb w1 = (None, w2, [])).
    { unfold try_send_accounts_get, try_with_server. cbn [server w1 after_actions].
      by rewrite Hanswer. }
    left. exists w2, []. split_and!; try done.
    unfold trySyncAccounts. cbv zeta. apply Hstart.
    by erewrite attempt_bind_None by exact Hget.
Qed.

(** What a run that finds the lock free publishes, leaves in the store
    and returns, whether it completes or stops at a rejected call. *)
Lemma trySyncAccounts_summary id w :
  accountsSyncing (account w) = [] →
  let r := trySyncAccounts fb id w in
  let ids := accountIdsToSync id (queries_accounts w) in
  ∃ rest,
    published_progress (trace r) = ids :: rest
    ∧ Forall (λ p, p `sublist_of` ids) rest
    ∧ accountsSyncing (account (final r)) = default ids (last rest)
    ∧ match result r with
      | Some b =>
          last rest = Some []
          ∧ ∃ payload,
              published (trace r) = [payload]
              ∧ (b = true
                 ↔ resNewTransactions payload ≠ []
                   ∨ resMatchedTransactions payload ≠ [])
      | None =>
          published (trace r) = []
          ∧ Forall (λ p, p ≠ []) rest
          ∧ (rest ≠ [] → ids ≠ [])
      end.
Proof.
  intros Hidle r ids. subst r.
  destruct (trySyncAccounts_phases id w Hidle)
    as [(w1 & early & -> & Hlock & Hpp & Hpub)
       |(seqIds & s0 & w0 & early & -> & Hlock & Hsub & Hflag & Hpp & Hpub)];
    fold ids in Hlock |- *.
  - unfold result, final, trace; cbn [fst snd].
    exists [].
    change (published_progress (Dispatch (setAccountsSyncing ids) :: early))
      with (ids :: published_progress early).
    change (published (Dispatch (setAccountsSyncing ids) :: early))
      with (published early).
    rewrite Hpp, Hpub. split_and!; done.
  - destruct (tryFinish_summary seqIds s0 w0 Hflag) as (Hp & Ha & Hr).
    destruct (tryFinish fb seqIds s0 w0) as [[b wf] tf].
    unfold result, final, trace in *; cbn [fst snd] in *.
    exists (published_progress tf).
    change (published_progress (Dispatch (setAccountsSyncing ids) :: ?t))
      with (ids :: published_progress t).
    change (published (Dispatch (setAccountsSyncing ids) :: ?t))
      with (published t).
    rewrite published_progress_app, published_app, Hpp, Hpub.
    cbn [app]. split_and!.
    + done.
    + eapply Forall_impl; [exact Hp|]. intros p Hq. by transitivity seqIds.
    + by rewrite Ha, Hlock.
    + destruct b as [b|].
      * done.
      * destruct Hr as (Hu & Hne & Hall). split_and!; try done.
        intros _ Hnil. fold ids in Hsub. rewrite Hnil in Hsub.
        by apply sublist_nil_r in Hsub.
Qed.

Lemma default_last_nonempty (ids : list string) rest :
  Forall (λ p, p ≠ []) rest → (rest ≠ [] → ids ≠ []) →
  default ids (last rest) = [] ↔ ids = [] ∧ rest = [].
Proof.
  intros Hall Hids. destruct rest as [|p rest _] using rev_ind.
  - simpl. split; [by intros ->|by intros [-> _]].
  - rewrite last_snoc. simpl.
    assert (Hp : p ≠ []).
    { rewrite Forall_forall in Hall. apply Hall.
      rewrite elem_of_app. right. by apply list_elem_of_singleton. }
    split; [by intros Hnil|].
    intros [_ Hnil]. by destruct rest.
Qed.
End FallibleOutcome.

(** ** A backend that answers every call *)

Section Answering.
Context {Server : Type} (backend : Backend Server).
Implicit Types w : World Server.

Lemma attempt_bind_refines {A B} (m' : Attempt Server A) (m : Thunk Server A)
    (k' : A → Attempt Server B) (k : A → Thunk Server B) w :
  m' w = attempt m w → (∀ a w', k' a w' = attempt (k a) w') →
  attempt_bind m' k' w = attempt (bind m k) w.
Proof.
  intros Hm Hk. unfold attempt_bind, bind. rewrite Hm. unfold attempt.
  destruct (m w) as [[a w1] t1]. rewrite Hk. unfold attempt.
  by destruct (k a w1) as [[b w2] t2].
Qed.

Lemma try_with_server_answering {R} (handler : Server → R * Server)
    (log : R → Event) w :
  try_with_server (λ s, let '(r, s') := handler s in (Some r, s')) log w
  = attempt (with_server handler log) w.
Proof.
  unfold try_with_server, with_server, attempt.
  by destruct (handler (server w)).
Qed.

Lemma trySyncOne_answering ids idx s w :
  trySyncOne (answering backend) ids idx s w
  = attempt (syncOne backend ids idx s) w.
Proof.
  unfold trySyncOne, syncOne.
  apply attempt_bind_refines.
  { apply (try_with_server_answering (accounts_bank_sync backend _)). }
  intros res w1. apply attempt_bind_refines; [done|].
  intros s' w2. apply attempt_bind_refines; [done|].
  done.
Qed.

Lemma try_for_idx_answering ids count idx s w :
  try_for_idx count idx (trySyncOne (answering backend) ids) s w
  = attempt (for_idx count idx (syncOne backend ids) s) w.
Proof.
  revert idx s w. induction count as [|count IH]; intros idx s w; [done|].
  cbn [try_for_idx for_idx].
  apply attempt_bind_refines; [apply trySyncOne_answering|].
  intros s' w'. apply IH.
Qed.

(** When every call is answered, the run with calls that may be rejected
    is the run of [syncAccounts]. *)
Lemma trySyncAccounts_answering id w :
  let r := syncAccounts backend id w in
  trySyncAccounts (answering backend) id w = (Some (result r), final r, trace r).
Proof.
  intros r. subst r.
  transitivity (attempt (syncAccounts backend id) w);
    [|unfold attempt; by destruct (syncAccounts backend id w) as [[b w'] t]].
  unfold trySyncAccounts, syncAccounts.
  apply attempt_bind_refines; [done|].
  intros accountsState w1.
  destruct (0 <? length (accountsSyncing accountsState))%nat; [done|].
  cbv zeta.
  apply attempt_bind_refines; [done|].
  intros queriesState w2. apply attempt_bind_refines; [done|].
  intros _ w3. apply attempt_bind_refines.
  { apply (try_with_server_answering (accounts_get backend)). }
  intros accountsData w4. apply attempt_bind_refines.
  - destruct (negb (truthy id)
              && (0 <? length (simpleFinAccounts accountsData))%nat);
      [|done].
    apply attempt_bind_refines.
    { apply (try_with_server_answering (simplefin_batch_sync backend _)). }
    intros res w5. apply attempt_bind_refines; [done|]. done.
  - intros p w5. apply attempt_bind_refines; [apply try_for_idx_answering|].
    intros s w6. apply attempt_bind_refines; [done|].
    intros _ w7. apply attempt_bind_refines; [done|]. done.
Qed.
End Answering.

(** ** Runs with calls that may be rejected: progress, the lock and the
    published update *)

(** A run that finds the lock taken does nothing. *)
Lemma trySyncAccounts_locked {Server} (fb : FallibleBackend Server) id
    (w : World Server) :
  accountsSyncing (account w) ≠ [] →
  trySyncAccounts fb id w = (Some false, w, []).
Proof.
  intros Hlocked. unfold trySyncAccounts.
  erewrite attempt_bind_Some; [|reflexivity|]; last first.
  { cbv beta. destruct (accountsSyncing (account w)) as [|x l]; [done|].
    reflexivity. }
  reflexivity.
Qed.

Section FallibleProperties.
Context {Server : Type} (fb : FallibleBackend Server).
Implicit Types w : World Server.


(** X13. After a run that finds the lock free, and in which any call to
    the backend may be rejected, the lock is free again exactly when the
    run completed or had no account to sync.  A run stopped by a rejected
    call with accounts to sync leaves the lock taken, and every later
    invocation, for any account and any backend, returns false without
    a request or a dispatch. *)
Theorem lock_after_run id w :
  accountsSyncing (account w) = [] →
  let r := trySyncAccounts fb id w in
  let ids := accountIdsToSync id (queries_accounts w) in
  (accountsSyncing (account (final r)) = [] ↔ is_Some (result r) ∨ ids = [])
  ∧ (result r = None → ids ≠ [] →
     ∀ (fb' : FallibleBackend Server) id',
       trySyncAccounts fb' id' (final r) = (Some false, final r, [])).
Proof.
  intros Hidle r ids.
  destruct (trySyncAccounts_summary fb id w Hidle)
    as (rest & Hpp & Hsub & Hlock & Hres).
  fold r ids in Hpp, Hsub, Hlock, Hres.
  assert (Hiff : accountsSyncing (account (final r)) = []
                 ↔ is_Some (result r) ∨ ids = []).
  { rewrite Hlock. destruct (result r) as [b|].
    - destruct Hres as [-> _]. split; [by left; eexists|done].
    - destruct Hres as (_ & Hall & Hids).
      rewrite (default_last_nonempty ids rest Hall Hids). split.
      + intros [Hnil _]. by right.
      + intros [[b [=]]|Hnil]. split; [done|].
        destruct rest as [|p rest'] eqn:Hrest; [done|].
        by destruct Hids. }
  split; [exact Hiff|].
  intros Hnone Hids fb' id'. apply trySyncAccounts_locked.
  rewrite Hiff, Hnone. by intros [[b [=]]|Hnil].
Qed.

(** X20. A run that finds the lock free, and in which any call to the
    backend may be rejected, publishes exactly one transaction update
    when it completes, and then returns true exactly when that update
    carries a new or a matched transaction; updated accounts alone do not
    make it return true.  A run that stops at a rejected call publishes
    no transaction update. *)
Theorem result_matches_update_unless_rejected id w :
  accountsSyncing (account w) = [] →
  let r := trySyncAccounts fb id w in
  match result r with
  | Some b =>
      ∃ payload,
        published (trace r) = [payload]
        ∧ (b = true
           ↔ resNewTransactions payload ≠ []
             ∨ resMatchedTransactions payload ≠ [])
  | None => published (trace r) = []
  end.
Proof.
  intros Hidle r.
  destruct (trySyncAccounts_summary fb id w Hidle)
    as (rest & _ & _ & _ & Hres).
  fold r in Hres. destruct (result r) as [b|].
  - by destruct Hres as [_ Hpayload].
  - by destruct Hres as [Hnone _].
Qed.
End FallibleProperties.

(** * Runs with a rejected call at concrete inputs *)

Section RejectedInstances.
Local Open Scope string_scope.
Local Open Scope list_scope.


Lemma lock_after_run_witness :
  accountsSyncing (account (idleWorld [first; second; third])) = []
  ∧ (let r := trySyncAccounts
                (flakyBackend [first; second; third] answers "second") None
                (idleWorld [first; second; third]) in
     result r = None
     ∧ accountsSyncing (account (final r)) = ["second"; "third"])
  ∧ let r := trySyncAccounts
               (flakyBackend [first; second; third] answers "second") None
               (idleWorld [first; second; third]) in
    let ids := accountIdsToSync None
                 (queries_accounts (idleWorld [first; second; third])) in
    (accountsSyncing (account (final r)) = [] ↔ is_Some (result r) ∨ ids = [])
    ∧ (result r = None → ids ≠ [] →
       ∀ (fb' : FallibleBackend unit) id',
         trySyncAccounts fb' id' (final r) = (Some false, final r, [])).
Proof.
  split; [reflexivity|]. split; [split; vm_compute; reflexivity|].
  apply (lock_after_run
           (flakyBackend [first; second; third] answers "second") None
           (idleWorld [first; second; third])).
  reflexivity.
Defined.

(** Once with the call for `second` rejected, once with every call
    answered. *)
Lemma result_matches_update_unless_rejected_witness :
  accountsSyncing (account (idleWorld [first; second; third])) = []
  ∧ (let r := trySyncAccounts
                (flakyBackend [first; second; third] answers "second") None
                (idleWorld [first; second; third]) in
     match result r with
     | Some b =>
         ∃ payload,
           published (trace r) = [payload]
           ∧ (b = true
              ↔ resNewTransactions payload ≠ []
                ∨ resMatchedTransactions payload ≠ [])
     | None => published (trace r) = []
     end)
  ∧ let r := trySyncAccounts
               (answering (tableBackend [first; second; third] answers)) None
               (idleWorld [first; second; third]) in
    match result r with
    | Some b =>
        ∃ payload,
          published (trace r) = [payload]
          ∧ (b = true
             ↔ resNewTransactions payload ≠ []
               ∨ resMatchedTransactions payload ≠ [])
    | None => published (trace r) = []
    end.
Proof.
  split; [reflexivity|]. split.
  - apply (result_matches_update_unless_rejected
             (flakyBackend [first; second; third] answers "second") None
             (idleWorld [first; second; third])).
    reflexivity.
  - apply (result_matches_update_unless_rejected
             (answering (tableBackend [first; second; third] answers)) None
             (idleWorld [first; second; third])).
    reflexivity.
Defined.
End RejectedInstances.
